(** * Chaotic LSB steganography: pixel codec, audio codec and crypto envelope

    A shallow embedding of [utils/steganography.ts], [utils/audioSteganography.ts]
    and [utils/crypto.ts], with the properties of the written specification
    stated and settled against it.

    Conventions of the embedding.
    - A JavaScript number is an IEEE-754 binary64 value.  The generator's
      [next] and the audio samples are computed in [spec_float] with the
      binary64 operations of the standard library, rounding included; array
      indices, lengths and the sum of a seed's character codes are integers
      far below [2^53], on which binary64 arithmetic is exact, and are
      [nat] or [Z].
    - A string is its sequence of UTF-16 code units.
    - A string of binary digits (['0'] / ['1']) is a [list bool], [true] for
      ['1'].
    - A [Uint8Array] / [Uint8ClampedArray] is a [list Z] of values in
      [0, 256); a [Float32Array] is a list of binary64 values that went
      through [Math_fround].
    - The pixel buffers live in a heap, so that cloning and in-place
      writes are visible; an out-of-range typed-array write is dropped, an
      out-of-range read gives [undefined], which [&] turns into [0]. *)

From Stdlib Require Import ZArith Lia Bool List Ascii String.
From Stdlib Require Import Floats.SpecFloat.
From stdpp Require Import base option list gmap.

Local Open Scope Z_scope.

(** ** JavaScript numbers *)

Module Js.

Definition prec : Z := 53.
Definition emax : Z := 1024.

(** An integer written in the source, as a binary64 value. *)
Definition of_Z (z : Z) : spec_float := binary_normalize prec emax z 0 false.

Definition add : spec_float -> spec_float -> spec_float := SFadd prec emax.
Definition mul : spec_float -> spec_float -> spec_float := SFmul prec emax.
Definition div : spec_float -> spec_float -> spec_float := SFdiv prec emax.

(** [Math.floor x], read as an integer.  The shuffle only floors finite
    values; a [NaN] or an infinity can only come from an audio sample, where
    the result is consumed by a bitwise operator, whose [ToInt32] turns it
    into [0]. *)
Definition Math_floor (x : spec_float) : Z :=
  match x with
  | S754_finite s m e => Z.shiftl (cond_Zopp s (Zpos m)) e
  | _ => 0
  end.

(** [x % d] for an integer-valued [x] and a positive integer [d]; the
    remainder of two binary64 values is exact. *)
Definition rem (x : spec_float) (d : Z) : Z := Z.rem (Math_floor x) d.

(** Storing into a [Float32Array] and reading back: round to nearest
    binary32, ties to even, then widen (exactly) to binary64. *)
Definition Math_fround (x : spec_float) : spec_float :=
  match x with
  | S754_finite s m e =>
      match binary_round 24 128 s m e with
      | S754_finite s' m' e' => binary_round prec emax s' m' e'
      | y => y
      end
  | _ => x
  end.

End Js.

(** ** Strings *)

(** A string, as its UTF-16 code units. *)
Definition js_string : Type := list Z.

Definition code_units (s : String.string) : js_string :=
  map (fun a => Z.of_nat (Ascii.nat_of_ascii a)) (String.list_ascii_of_string s).

Definition is_high_surrogate (c : Z) : bool := (55296 <=? c) && (c <=? 56319).
Definition is_low_surrogate (c : Z) : bool := (56320 <=? c) && (c <=? 57343).

(** [Array.from(str)]: the string iterator yields code points, so a high
    surrogate followed by a low one is a single element. *)
Fixpoint Array_from (s : js_string) : list js_string :=
  match s with
  | [] => []
  | c :: rest =>
      match rest with
      | d :: rest' =>
          if is_high_surrogate c && is_low_surrogate d
          then [c; d] :: Array_from rest'
          else [c] :: Array_from rest
      | [] => [[c]]
      end
  end.

Definition charCodeAt0 (ch : js_string) : Z := hd 0 ch.

(** ** SeededRandom *)

Module SeededRandom.

(** The object's only field, [seed]: an integer. *)
Definition t : Type := Z.

(** [constructor(seedStr)] *)
Definition new (seedStr : js_string) : t :=
  fold_left (fun acc char => acc + charCodeAt0 char) (Array_from seedStr) 0.

(** [next()]: the updated object and the returned fraction. *)
Definition next (this : t) : t * spec_float :=
  let seed :=
    Js.rem (Js.add (Js.mul (Js.of_Z this) (Js.of_Z 9301)) (Js.of_Z 49297)) 233280 in
  (seed, Js.div (Js.of_Z seed) (Js.of_Z 233280)).

End SeededRandom.

(** ** The chaotic shuffle *)

(** [[a[i], a[j]] = [a[j], a[i]]].  Both indices are inside the array
    whenever the shuffle runs ([shuffle_swaps_inside_array] below), so the
    branch for a missing element is never taken. *)
Definition swap (a : list nat) (i j : nat) : list nat :=
  match a !! j, a !! i with
  | Some aj, Some ai => <[j := ai]> (<[i := aj]> a)
  | _, _ => a
  end.

(** [Math.floor(rng.next() * (i + 1))] for the fraction [x]. *)
Definition draw (x : spec_float) (i : nat) : nat :=
  Z.to_nat (Js.Math_floor (Js.mul x (Js.of_Z (Z.of_nat i + 1)))).

(** [for (let i = ...; i > 0; i--)], entered with [i]. *)
Fixpoint shuffle_from (i : nat) (rng : SeededRandom.t) (availableIndices : list nat)
  : list nat :=
  match i with
  | O => availableIndices
  | S i' =>
      let '(rng', x) := SeededRandom.next rng in
      let j := draw x i in
      shuffle_from i' rng' (swap availableIndices i j)
  end.

(** [if (seed) { const rng = new SeededRandom(seed); for ... }]: the empty
    string is falsy. *)
Definition chaotic_shuffle (seed : js_string) (availableIndices : list nat) : list nat :=
  match seed with
  | [] => availableIndices
  | _ => shuffle_from (length availableIndices - 1) (SeededRandom.new seed) availableIndices
  end.

(** ** Loops *)

(** [for (let i = start; ...; i += step) body], run [count] times. *)
Fixpoint for_loop {S : Type} (count start step : nat) (body : nat -> S -> S) (s : S) : S :=
  match count with
  | O => s
  | Datatypes.S count' => for_loop count' (start + step)%nat step body (body start s)
  end.

(** ** Binary digit strings *)

Fixpoint pos_binary (p : positive) : list bool :=
  match p with
  | xH => [true]
  | xO p' => pos_binary p' ++ [false]
  | xI p' => pos_binary p' ++ [true]
  end.

(** [n.toString(2)] for a non-negative integer [n]. *)
Definition toString2 (n : Z) : list bool :=
  match n with
  | Zpos p => pos_binary p
  | _ => [false]
  end.

(** [s.padStart(n, '0')] *)
Definition padStart (n : nat) (s : list bool) : list bool :=
  replicate (n - length s) false ++ s.

(** [parseInt(s, 2)] on a string of binary digits; [None] is [NaN].  The
    strings parsed here have at most 32 digits, so the value is exact. *)
Definition parseInt2 (s : list bool) : option Z :=
  match s with
  | [] => None
  | _ => Some (fold_left (fun acc b => 2 * acc + Z.b2z b) s 0)
  end.

(** [s.slice(from, to)] for [from <= to]. *)
Definition slice {A : Type} (from to : nat) (s : list A) : list A :=
  take (to - from) (drop from s).

Definition bytesToBinary (bytes : list Z) : list bool :=
  concat (map (fun byte => padStart 8 (toString2 byte)) bytes).

(** [new Uint8Array(bin.length / 8)] truncates the quotient; the loop runs
    for [i = 0, 8, 16, ... < bin.length]; a store past the end is dropped
    and every stored value is reduced modulo 256. *)
Definition binaryToBytes (bin : list bool) : list Z :=
  let bytes := replicate (length bin / 8) 0 in
  for_loop ((length bin + 7) / 8) 0 8
    (fun i bytes =>
       <[(i / 8)%nat := default 0 (parseInt2 (slice i (i + 8) bin)) mod 256]> bytes)
    bytes.

(** ** Pixel carrier *)

Abbreviation loc := positive.
Abbreviation heap := (gmap positive (list Z)).

Module ImageData.
Record t : Type := Build { data : loc; width : Z; height : Z }.
End ImageData.

Definition DEFAULT_SEED : js_string := code_units "steganopro-default-chaotic-seed".

(** The loop that collects the RGB component indices. *)
Definition available_indices (len : nat) : list nat :=
  for_loop len 0 1
    (fun i availableIndices =>
       if decide ((i + 1) mod 4 <> 0)%nat then availableIndices ++ [i] else availableIndices)
    [].

(** Reading [a[i] & mask] from a typed array. *)
Definition load_and (a : list Z) (i : nat) (mask : Z) : Z :=
  Z.land (default 0 (a !! i)) mask.

(** Storing into a [Uint8ClampedArray]. *)
Definition clamp8 (v : Z) : Z := Z.max 0 (Z.min 255 v).

Definition store8 (h : heap) (l : loc) (i : nat) (v : Z) : heap :=
  <[l := <[i := clamp8 v]> (h !!! l)]> h.

(** An absent [seed] argument ([None]) takes the parameter default. *)
Definition encodeMessage (h : heap) (imageData : ImageData.t) (payload : list Z)
    (seed : option js_string) : heap * option ImageData.t :=
  let seed := default DEFAULT_SEED seed in
  let data := h !!! ImageData.data imageData in
  let binaryPayload := bytesToBinary payload in
  let payloadLength := length binaryPayload in
  let lengthBinary := padStart 32 (toString2 (Z.of_nat payloadLength)) in
  let totalBits := lengthBinary ++ binaryPayload in
  let availableIndices := available_indices (length data) in
  if (length availableIndices <? length totalBits)%nat then (h, None)
  else
    let availableIndices := chaotic_shuffle seed availableIndices in
    let newData := fresh (dom h) in
    let h := <[newData := data]> h in
    let newImageData :=
      ImageData.Build newData (ImageData.width imageData) (ImageData.height imageData) in
    let h :=
      for_loop (length totalBits) 0 1
        (fun i h =>
           match availableIndices !! i, totalBits !! i with
           | Some pixelIndex, Some bit =>
               store8 h newData pixelIndex
                 (Z.lor (load_and (h !!! newData) pixelIndex 254) (Z.b2z bit))
           | _, _ => h
           end)
        h in
    (h, Some newImageData).

(** [(data[availableIndices[i]] & 1).toString()] *)
Definition read_bit (data : list Z) (availableIndices : list nat) (i : nat) : bool :=
  match availableIndices !! i with
  | Some pixelIndex => Z.eqb (load_and data pixelIndex 1) 1
  | None => false
  end.

Definition decodeMessage (h : heap) (imageData : ImageData.t) (seed : option js_string)
  : option (list Z) :=
  let seed := default DEFAULT_SEED seed in
  let data := h !!! ImageData.data imageData in
  let availableIndices := available_indices (length data) in
  let availableIndices := chaotic_shuffle seed availableIndices in
  let binaryLength := map (read_bit data availableIndices) (seq 0 32) in
  match parseInt2 binaryLength with
  | None => None
  | Some payloadLength =>
      if (payloadLength <=? 0) || (Z.of_nat (length availableIndices) - 32 <? payloadLength)
      then None
      else
        let binaryPayload :=
          map (read_bit data availableIndices) (seq 32 (Z.to_nat payloadLength)) in
        Some (binaryToBytes binaryPayload)
  end.

(** Embedding and then extracting with the same seed. *)
Definition pixel_roundtrip (h : heap) (imageData : ImageData.t) (payload : list Z)
    (seed : option js_string) : option (list Z) :=
  match encodeMessage h imageData payload seed with
  | (h', Some encoded) => decodeMessage h' encoded seed
  | (_, None) => None
  end.

(** ** Audio carrier *)

Module AudioBuffer.
Record t : Type := Build {
  numberOfChannels : nat;
  length : nat;
  sampleRate : Z;
  channelData : list (list spec_float)
}.

(** [getChannelData(channel)] *)
Definition getChannelData (b : t) (channel : nat) : list spec_float :=
  default [] (channelData b !! channel).

(** [new AudioContext().createBuffer(channels, length, sampleRate)]: silence. *)
Definition createBuffer (channels len : nat) (rate : Z) : t :=
  Build channels len rate (replicate channels (replicate len (S754_zero false))).
End AudioBuffer.

(** [DEFAULT_SEED] of the audio module. *)
Definition AUDIO_DEFAULT_SEED : js_string := code_units "steganopro-audio-chaotic-seed".

(** [new Int32Array(totalSamples)] filled with [availableIndices[i] = i]. *)
Definition identity_indices (totalSamples : nat) : list nat :=
  for_loop totalSamples 0 1 (fun i availableIndices => <[i := i]> availableIndices)
    (replicate totalSamples 0%nat).

(** [dst.set(src)] for a source that fits. *)
Definition typed_set {A : Type} (dst src : list A) : list A :=
  src ++ drop (length src) dst.

(** [Math.floor(sample * 32767)] *)
Definition quantize (sample : spec_float) : Z :=
  Js.Math_floor (Js.mul sample (Js.of_Z 32767)).

(** The body of the embedding loop for one sample: the value that ends up
    in the [Float32Array]. *)
Definition embed_sample (sample : spec_float) (bit : bool) : spec_float :=
  let intSample := quantize sample in
  let intSample := Z.lor (Z.land intSample 65534) (Z.b2z bit) in
  Js.Math_fround (Js.div (Js.of_Z intSample) (Js.of_Z 32767)).

(** The audio loops swap through a [temp] variable, with the effect of the
    destructuring swap of the pixel loops. *)
Definition encodeAudioMessage (audioBuffer : AudioBuffer.t) (payload : list Z)
    (seed : option js_string) : option AudioBuffer.t :=
  let seed := default AUDIO_DEFAULT_SEED seed in
  let channels := AudioBuffer.numberOfChannels audioBuffer in
  let length := AudioBuffer.length audioBuffer in
  let binaryPayload := bytesToBinary payload in
  let payloadLength := List.length binaryPayload in
  let lengthBinary := padStart 32 (toString2 (Z.of_nat payloadLength)) in
  let totalBits := lengthBinary ++ binaryPayload in
  let totalSamples := (channels * length)%nat in
  if (totalSamples <? List.length totalBits)%nat then None
  else
    let availableIndices := identity_indices totalSamples in
    let availableIndices := chaotic_shuffle seed availableIndices in
    let newBuffer :=
      AudioBuffer.createBuffer channels length (AudioBuffer.sampleRate audioBuffer) in
    let newData :=
      for_loop channels 0 1
        (fun channel newData =>
           <[channel := typed_set (default [] (newData !! channel))
                          (AudioBuffer.getChannelData audioBuffer channel)]> newData)
        (AudioBuffer.channelData newBuffer) in
    let newData :=
      for_loop (List.length totalBits) 0 1
        (fun i newData =>
           match availableIndices !! i, totalBits !! i with
           | Some globalIndex, Some bit =>
               let channel := (globalIndex mod channels)%nat in
               let sampleIndex := (globalIndex / channels)%nat in
               let channelData := default [] (newData !! channel) in
               match channelData !! sampleIndex with
               | Some sample =>
                   <[channel := <[sampleIndex := embed_sample sample bit]> channelData]>
                     newData
               | None => newData
               end
           | _, _ => newData
           end)
        newData in
    Some (AudioBuffer.Build channels length (AudioBuffer.sampleRate audioBuffer) newData).

(** [(Math.floor(sample * 32767) & 1).toString()] for the sample at slot [i]. *)
Definition read_sample_bit (audioBuffer : AudioBuffer.t) (availableIndices : list nat)
    (i : nat) : bool :=
  let channels := AudioBuffer.numberOfChannels audioBuffer in
  match availableIndices !! i with
  | Some globalIndex =>
      let channel := (globalIndex mod channels)%nat in
      let sampleIndex := (globalIndex / channels)%nat in
      match AudioBuffer.getChannelData audioBuffer channel !! sampleIndex with
      | Some sample => Z.eqb (Z.land (quantize sample) 1) 1
      | None => false
      end
  | None => false
  end.

Definition decodeAudioMessage (audioBuffer : AudioBuffer.t) (seed : option js_string)
  : option (list Z) :=
  let seed := default AUDIO_DEFAULT_SEED seed in
  let channels := AudioBuffer.numberOfChannels audioBuffer in
  let length := AudioBuffer.length audioBuffer in
  let totalSamples := (channels * length)%nat in
  let availableIndices := identity_indices totalSamples in
  let availableIndices := chaotic_shuffle seed availableIndices in
  let binaryLength := map (read_sample_bit audioBuffer availableIndices) (seq 0 32) in
  match parseInt2 binaryLength with
  | None => None
  | Some payloadLength =>
      if (payloadLength <=? 0) || (Z.of_nat totalSamples - 32 <? payloadLength)
      then None
      else
        let binaryPayload :=
          map (read_sample_bit audioBuffer availableIndices)
            (seq 32 (Z.to_nat payloadLength)) in
        Some (binaryToBytes binaryPayload)
  end.

Definition audio_roundtrip (audioBuffer : AudioBuffer.t) (payload : list Z)
    (seed : option js_string) : option (list Z) :=
  match encodeAudioMessage audioBuffer payload seed with
  | Some encoded => decodeAudioMessage encoded seed
  | None => None
  end.

(** ** Encryption envelope *)

Definition ITERATIONS : Z := 100000.
Definition SALT_SIZE : nat := 16.
Definition IV_SIZE : nat := 12.
Definition DEFAULT_KEY : js_string := code_units "steganopro-internal-system-key-2026".

(** [dst.set(src, offset)] for a source that fits. *)
Definition typed_set_at {A : Type} (dst src : list A) (offset : nat) : list A :=
  take offset dst ++ src ++ drop (offset + length src) dst.

Module DecryptResult.
Record t : Type := Build { data : list Z; isText : bool }.
End DecryptResult.

(** The platform services the envelope relies on: text encoding, gzip
    streams and the Web Crypto primitives. *)
Class Platform : Type := {
  CryptoKey : Type;
  (** [new TextEncoder().encode] *)
  TextEncoder_encode : js_string -> list Z;
  (** whether a strict UTF-8 [TextDecoder] accepts the bytes *)
  TextDecoder_accepts : list Z -> bool;
  (** whether [new Response(data).body] is a stream *)
  has_body : bool;
  (** piping through [CompressionStream('gzip')] *)
  gzip : list Z -> list Z;
  (** piping through [DecompressionStream('gzip')]; [None] when the stream errors *)
  gunzip : list Z -> option (list Z);
  (** [importKey] followed by [deriveKey]: PBKDF2 over password, salt, iterations *)
  PBKDF2 : list Z -> list Z -> Z -> CryptoKey;
  (** [subtle.encrypt] with AES-GCM under a key and a nonce: ciphertext and tag *)
  AES_GCM_encrypt : CryptoKey -> list Z -> list Z -> list Z;
  (** [subtle.decrypt] with AES-GCM; [None] when the promise rejects *)
  AES_GCM_decrypt : CryptoKey -> list Z -> list Z -> option (list Z)
}.

Section Envelope.
Context `{Platform}.

Definition compressData (data : list Z) : list Z :=
  if has_body then gzip data else data.

Definition decompressData (data : list Z) : list Z :=
  if has_body then
    match gunzip data with
    | Some decompressed => decompressed
    | None => data
    end
  else data.

(** [data: string | Uint8Array] after the [typeof] test. *)
Definition raw_bytes (data : js_string + list Z) : list Z :=
  match data with
  | inl str => TextEncoder_encode str
  | inr bytes => bytes
  end.

(** The salt and the nonce [getRandomValues] draws from the entropy
    [random]: the salt first, then the nonce. *)
Definition drawn_salt (random : nat -> Z) : list Z := map random (seq 0 SALT_SIZE).
Definition drawn_iv (random : nat -> Z) : list Z := map random (seq SALT_SIZE IV_SIZE).

Definition encryptData (random : nat -> Z) (data : js_string + list Z)
    (password : option js_string) (compress : option bool) : list Z :=
  let password := default DEFAULT_KEY password in
  let compress := default true compress in
  let rawData := raw_bytes data in
  let rawData := if compress then compressData rawData else rawData in
  let salt := drawn_salt random in
  let iv := drawn_iv random in
  let key := PBKDF2 (TextEncoder_encode password) salt ITERATIONS in
  let encrypted := AES_GCM_encrypt key iv rawData in
  let combined := replicate (1 + length salt + length iv + length encrypted) 0 in
  let combined := <[0%nat := if compress then 1 else 0]> combined in
  let combined := typed_set_at combined salt 1 in
  let combined := typed_set_at combined iv (1 + length salt) in
  let combined := typed_set_at combined encrypted (1 + length salt + length iv) in
  combined.

(** [None] is the rejected promise. *)
Definition decryptData (combined : list Z) (password : option js_string)
  : option DecryptResult.t :=
  let password := default DEFAULT_KEY password in
  let isCompressed := bool_decide (combined !! 0%nat = Some 1) in
  let salt := slice 1 (1 + SALT_SIZE) combined in
  let iv := slice (1 + SALT_SIZE) (1 + SALT_SIZE + IV_SIZE) combined in
  let data := drop (1 + SALT_SIZE + IV_SIZE) combined in
  let key := PBKDF2 (TextEncoder_encode password) salt ITERATIONS in
  match AES_GCM_decrypt key iv data with
  | None => None
  | Some decrypted =>
      let resultData := if isCompressed then decompressData decrypted else decrypted in
      Some (DecryptResult.Build resultData (TextDecoder_accepts resultData))
  end.

(** The bytes that are sealed, and the sealed bytes. *)
Definition sealed_input (data : js_string + list Z) (compress : option bool) : list Z :=
  if default true compress then compressData (raw_bytes data) else raw_bytes data.

Definition ciphertext (random : nat -> Z) (data : js_string + list Z)
    (password : option js_string) (compress : option bool) : list Z :=
  AES_GCM_encrypt
    (PBKDF2 (TextEncoder_encode (default DEFAULT_KEY password)) (drawn_salt random)
       ITERATIONS)
    (drawn_iv random) (sealed_input data compress).

(** The primitives are the standard inverse pairs. *)
Definition standard_inverses : Prop :=
  (forall key iv data, AES_GCM_decrypt key iv (AES_GCM_encrypt key iv data) = Some data)
  /\ (forall data, gunzip (gzip data) = Some data).

End Envelope.

(** A value that is zero, positive or not a number. *)
Definition not_negative (x : spec_float) : Prop :=
  match x with
  | S754_finite s _ _ => s = false
  | S754_infinity s => s = false
  | _ => True
  end.

(** A binary64 mantissa of full width. *)
Definition normal53 (m : positive) : Prop := 2 ^ 52 <= Zpos m < 2 ^ 53.

(** ** Auxiliary notions for the statements *)

(** [availableIndices] as [encodeMessage] and [decodeMessage] have it after
    the optional shuffle, for a carrier of [len] components. *)
Definition pixel_slots (len : nat) (seed : option js_string) : list nat :=
  chaotic_shuffle (default DEFAULT_SEED seed) (available_indices len).

(** [availableIndices] as [encodeAudioMessage] and [decodeAudioMessage] have
    it after the optional shuffle. *)
Definition audio_slots (totalSamples : nat) (seed : option js_string) : list nat :=
  chaotic_shuffle (default AUDIO_DEFAULT_SEED seed) (identity_indices totalSamples).

(** The sum of the character codes of a string, that is of its UTF-16 code
    units. *)
Definition code_sum (s : js_string) : Z := foldr Z.add 0 s.

(** No high surrogate of the string is directly followed by a low one, so
    that the string iterator yields every code unit on its own; so it is for
    every string of characters of the Basic Multilingual Plane. *)
Fixpoint pair_free (s : js_string) : bool :=
  match s with
  | [] => true
  | c :: rest =>
      match rest with
      | d :: _ => negb (is_high_surrogate c && is_low_surrogate d) && pair_free rest
      | [] => true
      end
  end.

Definition bits_value (s : list bool) : Z :=
  fold_left (fun acc b => 2 * acc + Z.b2z b) s 0.

(** The digits of a byte, as [bytesToBinary] writes them. *)
Definition byte_bits (byte : Z) : list bool := padStart 8 (toString2 byte).

Definition is_byte (v : Z) : Prop := 0 <= v < 256.

(** The byte that [binaryToBytes] stores at index [t]. *)
Definition packed_byte (bin : list bool) (t : nat) : Z :=
  default 0 (parseInt2 (slice (8 * t) (8 * t + 8) bin)) mod 256.

(** The exchange of positions [i] and [j]. *)
Definition transpose (i j k : nat) : nat :=
  if decide (k = i) then j else if decide (k = j) then i else k.

(** Every draw of a shuffle entered at [i] with generator state [rng] picks
    a position of the prefix still to be shuffled. *)
Fixpoint draws_in_range (i : nat) (rng : SeededRandom.t) : Prop :=
  match i with
  | O => True
  | Datatypes.S i' =>
      let '(rng', x) := SeededRandom.next rng in
      (draw x i <= i)%nat /\ draws_in_range i' rng'
  end.

Definition is_rgb (i : nat) : Prop := ((i + 1) mod 4 <> 0)%nat.

(** The component that replaces [v] when [bit] is embedded in it. *)
Definition with_low_bit (v : Z) (bit : bool) : Z :=
  clamp8 (Z.lor (Z.land v 254) (Z.b2z bit)).

Definition low_bit_table_ok : bool :=
  forallb
    (fun v =>
       forallb
         (fun bit =>
            let w := with_low_bit v bit in
            (0 <=? w) && (w <? 256) && (Z.land w 1 =? Z.b2z bit)
            && (Z.land w 254 =? Z.land v 254))
         [false; true])
    (map Z.of_nat (seq 0 256)).

(** One iteration of the loop of [encodeMessage], as it acts on the clone. *)
Definition embed_bit (slots : list nat) (bits : list bool) (i : nat) (d : list Z) : list Z :=
  match slots !! i, bits !! i with
  | Some p, Some b => <[p := with_low_bit (default 0 (d !! p)) b]> d
  | _, _ => d
  end.

Definition embed_bits (slots : list nat) (bits : list bool) (n : nat) (d : list Z) : list Z :=
  for_loop n 0 1 (embed_bit slots bits) d.

(** [totalBits]: the 32-digit length header followed by the payload digits. *)
Definition total_bits (payload : list Z) : list bool :=
  padStart 32 (toString2 (Z.of_nat (length (bytesToBinary payload))))
  ++ bytesToBinary payload.

(** The length header [decodeMessage] reads from [data], and the payload
    digits it reads after a header of [payloadLength]. *)
Definition decoded_header (data : list Z) (slots : list nat) : option Z :=
  parseInt2 (map (read_bit data slots) (seq 0 32)).

Definition extracted_bits (data : list Z) (slots : list nat) (payloadLength : Z)
  : list bool :=
  map (read_bit data slots) (seq 32 (Z.to_nat payloadLength)).

(** ** The shuffle loop as a transition system *)

Record loop_state : Type :=
  LoopState { loop_i : nat; loop_rng : SeededRandom.t; loop_array : list nat }.

(** One iteration of [for (let i = length - 1; i > 0; i--)]. *)
Inductive shuffle_step : loop_state -> loop_state -> Prop :=
| shuffle_step_swap (i : nat) (rng rng' : SeededRandom.t) (x : spec_float) (a : list nat) :
    SeededRandom.next rng = (rng', x) ->
    shuffle_step (LoopState (Datatypes.S i) rng a)
      (LoopState i rng' (swap a (Datatypes.S i) (draw x (Datatypes.S i)))).

(** A run of the loop to its exit, and the array it leaves. *)
Inductive shuffle_run : loop_state -> list nat -> Prop :=
| shuffle_run_exit (rng : SeededRandom.t) (a : list nat) :
    shuffle_run (LoopState 0 rng a) a
| shuffle_run_step (st st' : loop_state) (result : list nat) :
    shuffle_step st st' -> shuffle_run st' result -> shuffle_run st result.

(** Generating the shuffled sequence for [n] slots from [seed]: the index
    array, then, for a non-empty seed, a generator constructed from the seed
    and the loop run to its exit. *)
Definition generates (seed : js_string) (n : nat) (result : list nat) : Prop :=
  match seed with
  | [] => result = identity_indices n
  | _ :: _ =>
      shuffle_run (LoopState (n - 1) (SeededRandom.new seed) (identity_indices n)) result
  end.

(** ** Sample inputs *)

(** A heap holding one image of [n] components, all equal to [v]. *)
Definition flat_heap (n : nat) (v : Z) : heap := {[ 1%positive := replicate n v ]}.
Definition flat_image (w h : Z) : ImageData.t := ImageData.Build 1 w h.

(** One channel of silence. *)
Definition silence (n : nat) : AudioBuffer.t :=
  AudioBuffer.Build 1 n 44100 [replicate n (S754_zero false)].

(** Two channels of [n] samples each, at full positive and negative scale. *)
Definition full_scale (n : nat) : AudioBuffer.t :=
  AudioBuffer.Build 2 n 44100 [replicate n (Js.of_Z 1); replicate n (Js.of_Z (-1))].

(** A stand-in platform whose cipher prefixes a 16-byte tag made from key
    and nonce, and whose gzip prefixes the two magic bytes. *)
Definition toy_tag (key iv : list Z) : list Z := take 16 (key ++ iv ++ replicate 16 0).

Definition toy_platform : Platform := {|
  CryptoKey := list Z;
  TextEncoder_encode := fun s => s;
  TextDecoder_accepts := fun bytes => forallb (fun b => b <? 128) bytes;
  has_body := true;
  gzip := fun data => 31 :: 139 :: data;
  gunzip := fun data =>
    match data with
    | 31 :: 139 :: rest => Some rest
    | _ => None
    end;
  PBKDF2 := fun password salt _ => password ++ salt;
  AES_GCM_encrypt := fun key iv data => toy_tag key iv ++ data;
  AES_GCM_decrypt := fun key iv data =>
    if decide (take 16 data = toy_tag key iv) then Some (drop 16 data) else None
|}.

(** An entropy source for the examples. *)
Definition counting_entropy (i : nat) : Z := Z.of_nat ((7 * i + 3) mod 256).

(** * Properties *)

(** ** Binary64 rounding

    What the shuffle needs from IEEE arithmetic: a draw
    [Math.floor(rng.next() * (i + 1))] lands in [0, i].  The bounds are
    derived from the rounding algorithm of [SpecFloat] itself. *)

(** The number of binary digits of a mantissa brackets it between powers of two. *)
Lemma digits2_pos_bounds (p : positive) :
  2 ^ (Zpos (digits2_pos p) - 1) <= Zpos p < 2 ^ Zpos (digits2_pos p).
Proof.
  induction p as [p IH | p IH |]; cbn [digits2_pos].
  - rewrite Pos2Z.inj_succ.
    replace (Z.succ (Zpos (digits2_pos p)) - 1) with (Z.succ (Zpos (digits2_pos p) - 1)) by lia.
    rewrite !Z.pow_succ_r by lia. lia.
  - rewrite Pos2Z.inj_succ.
    replace (Z.succ (Zpos (digits2_pos p)) - 1) with (Z.succ (Zpos (digits2_pos p) - 1)) by lia.
    rewrite !Z.pow_succ_r by lia. lia.
  - cbn. lia.
Qed.

Lemma digits2_pos_unique (p : positive) (n : Z) :
  2 ^ (n - 1) <= Zpos p < 2 ^ n -> Zpos (digits2_pos p) = n.
Proof.
  intros [Hlo Hhi]. pose proof (digits2_pos_bounds p) as [Blo Bhi].
  destruct (Z.lt_trichotomy (Zpos (digits2_pos p)) n) as [Hlt | [Heq | Hgt]]; [| exact Heq |].
  - exfalso. assert (2 ^ Zpos (digits2_pos p) <= 2 ^ (n - 1)) by (apply Z.pow_le_mono_r; lia). lia.
  - exfalso. assert (0 <= n).
    { destruct (Z.le_gt_cases 0 n); [assumption|]. rewrite Z.pow_neg_r in Hhi by lia. lia. }
    assert (2 ^ n <= 2 ^ (Zpos (digits2_pos p) - 1)) by (apply Z.pow_le_mono_r; lia). lia.
Qed.

Lemma shr_1_m (mrs : shr_record) : 0 <= shr_m mrs -> shr_m (shr_1 mrs) = shr_m mrs / 2.
Proof.
  destruct mrs as [m r s]. cbn [shr_m]. intros Hm.
  destruct m as [| [p | p |] | p]; cbn [shr_1 shr_m]; try lia.
  - reflexivity.
  - rewrite Pos2Z.inj_xI. apply Z.div_unique with (r := 1); lia.
  - rewrite Pos2Z.inj_xO. apply Z.div_unique with (r := 0); lia.
  - reflexivity.
Qed.

(** Shifting a rounding record right by [p] places divides its mantissa by [2^p]. *)
Lemma shr_iter_m (p : positive) : forall mrs : shr_record,
  0 <= shr_m mrs -> shr_m (SpecFloat.iter_pos shr_1 p mrs) = shr_m mrs / 2 ^ Zpos p.
Proof.
  induction p as [p IH | p IH |]; intros mrs Hm; cbn [SpecFloat.iter_pos].
  - assert (H1 : 0 <= shr_m (shr_1 mrs)) by (rewrite shr_1_m by assumption; apply Z.div_pos; lia).
    assert (H2 : 0 <= shr_m (SpecFloat.iter_pos shr_1 p (shr_1 mrs))) by (rewrite IH by assumption; apply Z.div_pos; lia).
    rewrite IH, IH, shr_1_m by assumption.
    rewrite !Z.div_div by lia. f_equal.
    rewrite Pos2Z.inj_xI, <- !Z.pow_add_r, <- Z.pow_succ_r by lia. f_equal. lia.
  - assert (H2 : 0 <= shr_m (SpecFloat.iter_pos shr_1 p mrs)) by (rewrite IH by assumption; apply Z.div_pos; lia).
    rewrite IH, IH by assumption.
    rewrite !Z.div_div by lia. f_equal.
    rewrite Pos2Z.inj_xO, <- !Z.pow_add_r by lia. f_equal. lia.
  - apply shr_1_m; assumption.
Qed.

Lemma loc_of_shr_record_of_loc (m : Z) (l : location) :
  loc_of_shr_record (shr_record_of_loc m l) = l.
Proof. destruct l as [| []]; reflexivity. Qed.

Lemma shr_m_of_loc (m : Z) (l : location) : shr_m (shr_record_of_loc m l) = m.
Proof. destruct l as [| []]; reflexivity. Qed.

Lemma round_nearest_even_bounds (m : Z) (l : location) :
  m <= round_nearest_even m l <= m + 1.
Proof. destruct l as [| []]; cbn; try destruct (Z.even m); lia. Qed.

Lemma normal53_digits (m : positive) : normal53 m <-> Zpos (digits2_pos m) = 53.
Proof.
  split.
  - intros H. apply digits2_pos_unique. exact H.
  - intros H. pose proof (digits2_pos_bounds m) as B. rewrite H in B. exact B.
Qed.

(** In the normal range, the shift to 53 digits is by [digits - 53] places. *)
Lemma shr_fexp_normal (p : positive) (e : Z) (l : location) :
  53 <= Zpos (digits2_pos p) -> -1074 <= Zpos (digits2_pos p) + e - 53 ->
  exists mrs, shr_fexp 53 1024 (Zpos p) e l = (mrs, e + (Zpos (digits2_pos p) - 53))
     /\ shr_m mrs = Zpos p / 2 ^ (Zpos (digits2_pos p) - 53)
     /\ (Zpos (digits2_pos p) = 53 -> mrs = shr_record_of_loc (Zpos p) l).
Proof.
  intros Hd Hn. unfold shr_fexp, fexp, emin. cbn [Zdigits2].
  rewrite Z.max_l by lia.
  replace (Zpos (digits2_pos p) + e - 53 - e) with (Zpos (digits2_pos p) - 53) by lia.
  destruct (Zpos (digits2_pos p) - 53) as [| n | n] eqn:En; try lia.
  - exists (shr_record_of_loc (Zpos p) l). cbn [shr]. split; [f_equal; lia |].
    split; [| reflexivity]. rewrite shr_m_of_loc. cbn. symmetry. apply Z.div_1_r.
  - exists (SpecFloat.iter_pos shr_1 n (shr_record_of_loc (Zpos p) l)). cbn [shr]. split; [reflexivity |].
    split; [| lia]. rewrite shr_iter_m; rewrite shr_m_of_loc; [reflexivity | lia].
Qed.

(** Rounding a positive value of at least 53 digits in the normal range: the
    result is a full-width mantissa, at most one unit in the last place above
    the truncated value, and the value itself when nothing is cut off. *)
Lemma binary_round_aux_normal (p : positive) (e : Z) (l : location) :
  53 <= Zpos (digits2_pos p) ->
  -1074 <= Zpos (digits2_pos p) + e - 53 ->
  Zpos (digits2_pos p) + e - 52 <= 971 ->
  exists m' e', binary_round_aux 53 1024 false (Zpos p) e l = S754_finite false m' e'
    /\ normal53 m'
    /\ Zpos (digits2_pos p) - 53 <= e' - e <= Zpos (digits2_pos p) - 52
    /\ Zpos m' * 2 ^ (e' - e) <= Zpos p + 2 ^ (Zpos (digits2_pos p) - 53)
    /\ (Zpos (digits2_pos p) = 53 -> l = loc_Exact -> m' = p /\ e' = e).
Proof.
  intros Hd Hlo Hhi. set (d := Zpos (digits2_pos p)) in *.
  pose proof (digits2_pos_bounds p) as [Plo Phi]. fold d in Plo, Phi.
  destruct (shr_fexp_normal p e l Hd Hlo) as (mrs & E1 & Hm1 & Hex1). fold d in E1, Hm1, Hex1.
  unfold binary_round_aux. rewrite E1.
  set (n := d - 53) in *. set (m1 := shr_m mrs) in *.
  assert (Hpow : 2 ^ (d - 1) = 2 ^ 52 * 2 ^ n /\ 2 ^ d = 2 ^ 53 * 2 ^ n).
  { split; rewrite <- Z.pow_add_r by lia; f_equal; lia. }
  destruct Hpow as [Hp1 Hp2].
  assert (Hn0 : 0 < 2 ^ n) by (apply Z.pow_pos_nonneg; lia).
  assert (Hm1r : 2 ^ 52 <= m1 < 2 ^ 53).
  { rewrite Hm1. split.
    - apply Z.div_le_lower_bound; lia.
    - apply Z.div_lt_upper_bound; lia. }
  assert (Hm1p : m1 * 2 ^ n <= Zpos p).
  { rewrite Hm1, Z.mul_comm. apply Z.mul_div_le. lia. }
  pose proof (round_nearest_even_bounds m1 (loc_of_shr_record mrs)) as Hr.
  set (m2 := round_nearest_even m1 (loc_of_shr_record mrs)) in *.
  destruct m2 as [| p2 | p2] eqn:Em2; try lia.
  destruct (Z.eq_dec (Zpos p2) (2 ^ 53)) as [Hcarry | Hnc].
  - assert (D2 : Zpos (digits2_pos p2) = 54) by (apply digits2_pos_unique; rewrite Hcarry; cbn; lia).
    destruct (shr_fexp_normal p2 (e + n) loc_Exact) as (mrs2 & E2 & Hm2 & _); [lia | lia |].
    rewrite E2, Hm2, D2, Hcarry.
    pose (c := 4503599627370496%positive).
    assert (Hc : Zpos c = 2 ^ 52) by reflexivity.
    change (2 ^ 53 / 2 ^ (54 - 53)) with (Zpos c). clearbody c. cbv beta iota.
    assert (Hle : (e + n + (54 - 53) <=? 1024 - 53) = true) by (apply Z.leb_le; lia).
    rewrite Hle.
    exists c, (e + n + (54 - 53)).
    split; [reflexivity |]. split; [unfold normal53; rewrite Hc; cbn; lia |].
    split; [lia |]. split.
    + replace (e + n + (54 - 53) - e) with (n + 1) by lia.
      rewrite Z.pow_add_r by lia. change (2 ^ 1) with 2.
      assert (Hm1e : m1 = 2 ^ 53 - 1) by lia. rewrite Hm1e in Hm1p.
      rewrite Hc. change (2 ^ 53) with (2 * 2 ^ 52) in Hm1p. lia.
    + intros Hd53 Hl. exfalso. subst l. unfold m2, m1 in Em2.
      rewrite Hex1 in Em2 by assumption.
      rewrite loc_of_shr_record_of_loc, shr_m_of_loc in Em2. cbn [round_nearest_even] in Em2.
      assert (Zpos p < 2 ^ 53) by (rewrite Hd53 in Phi; exact Phi). lia.
  - assert (D2 : Zpos (digits2_pos p2) = 53).
    { apply digits2_pos_unique. change (2 ^ (53 - 1)) with (2 ^ 52). lia. }
    destruct (shr_fexp_normal p2 (e + n) loc_Exact) as (mrs2 & E2 & _ & Hex2); [lia | lia |].
    rewrite E2, Hex2 by assumption. cbn [shr_record_of_loc shr_m].
    assert (Hle : (e + n + (Zpos (digits2_pos p2) - 53) <=? 1024 - 53) = true) by (apply Z.leb_le; lia).
    rewrite Hle.
    exists p2, (e + n + (Zpos (digits2_pos p2) - 53)).
    split; [reflexivity |]. split; [unfold normal53; lia |].
    split; [lia |]. split.
    + replace (e + n + (Zpos (digits2_pos p2) - 53) - e) with n by lia. nia.
    + intros Hd53 Hl. subst l. unfold m2, m1 in Em2.
      rewrite Hex1 in Em2 by assumption.
      rewrite loc_of_shr_record_of_loc, shr_m_of_loc in Em2. cbn [round_nearest_even] in Em2.
      split; [congruence | lia].
Qed.

Lemma pos_iter_xO (p n : positive) : Zpos (Pos.iter xO p n) = Zpos p * 2 ^ Zpos n.
Proof.
  induction n as [| n IH] using Pos.peano_ind.
  - cbn. lia.
  - rewrite Pos.iter_succ, Pos2Z.inj_xO, IH, Pos2Z.inj_succ, Z.pow_succ_r by lia. lia.
Qed.

(** A positive integer below [2^53] converts exactly. *)
Lemma of_Z_pos (z : Z) :
  0 < z < 2 ^ 53 ->
  exists m e, Js.of_Z z = S754_finite false m e /\ normal53 m /\ -52 <= e <= 0
              /\ Zpos m = z * 2 ^ (- e).
Proof.
  intros [Hz0 Hz]. destruct z as [| p | p]; try lia.
  pose proof (digits2_pos_bounds p) as [Plo Phi].
  set (d := Zpos (digits2_pos p)) in *.
  assert (Hd1 : 1 <= d) by (unfold d; lia).
  assert (Hd : d <= 53).
  { destruct (Z.le_gt_cases d 53) as [H | H]; [exact H |]. exfalso.
    assert (2 ^ 53 <= 2 ^ (d - 1)) by (apply Z.pow_le_mono_r; lia). lia. }
  unfold Js.of_Z, Js.prec, Js.emax, binary_normalize, binary_round, shl_align, fexp, emin. fold d.
  rewrite Z.max_l by lia.
  destruct (d + 0 - 53 - 0) as [| n | n] eqn:En; try lia.
  - assert (Hd53 : d = 53) by lia.
    destruct (binary_round_aux_normal p 0 loc_Exact) as (m' & e' & E & _ & _ & _ & Hex);
      fold d; try lia.
    destruct (Hex Hd53 eq_refl) as [-> ->]. exists p, 0.
    split; [exact E |]. split; [apply normal53_digits; exact Hd53 |].
    split; [lia |]. cbn. lia.
  - assert (Hn : Zpos n = 53 - d) by lia.
    assert (Hq : Zpos (Pos.iter xO p n) = Zpos p * 2 ^ (53 - d)) by (rewrite pos_iter_xO, Hn; reflexivity).
    assert (Hpw : 2 ^ (d - 1) * 2 ^ (53 - d) = 2 ^ 52 /\ 2 ^ d * 2 ^ (53 - d) = 2 ^ 53).
    { split; rewrite <- Z.pow_add_r by lia; f_equal; lia. }
    assert (Hp0 : 0 < 2 ^ (53 - d)) by (apply Z.pow_pos_nonneg; lia).
    assert (Hnorm : normal53 (Pos.iter xO p n)) by (unfold normal53; rewrite Hq; nia).
    assert (Hd53 : Zpos (digits2_pos (Pos.iter xO p n)) = 53) by (apply normal53_digits; exact Hnorm).
    destruct (binary_round_aux_normal (Pos.iter xO p n) (d + 0 - 53) loc_Exact)
      as (m' & e' & E & _ & _ & _ & Hex); rewrite ?Hd53; try lia.
    destruct (Hex Hd53 eq_refl) as [-> ->]. exists (Pos.iter xO p n), (d + 0 - 53).
    split; [exact E |]. split; [exact Hnorm |]. split; [lia |].
    rewrite Hq. f_equal. f_equal. lia.
Qed.

(** An upper bound on the rounded product of two positive normal values. *)
Lemma mul_normal (mx my : positive) (ex ey : Z) :
  normal53 mx -> normal53 my -> -1074 <= 52 + ex + ey -> ex + ey <= 900 ->
  exists m e, SFmul 53 1024 (S754_finite false mx ex) (S754_finite false my ey)
              = S754_finite false m e
    /\ normal53 m /\ 52 <= e - (ex + ey) <= 54
    /\ Zpos m * 2 ^ (e - (ex + ey)) <= Zpos mx * Zpos my + 2 ^ 53.
Proof.
  intros Hx Hy Hlo Hhi. unfold normal53 in Hx, Hy. cbn [SFmul xorb].
  pose proof (digits2_pos_bounds (mx * my)) as [Plo Phi].
  set (d := Zpos (digits2_pos (mx * my))) in *.
  rewrite Pos2Z.inj_mul in Plo, Phi.
  assert (Hprod : 2 ^ 104 <= Zpos mx * Zpos my < 2 ^ 106).
  { change (2 ^ 104) with (2 ^ 52 * 2 ^ 52). change (2 ^ 106) with (2 ^ 53 * 2 ^ 53). nia. }
  assert (Hd : 105 <= d <= 106).
  { split.
    - destruct (Z.le_gt_cases 105 d) as [H | H]; [exact H |]. exfalso.
      assert (2 ^ d <= 2 ^ 104) by (apply Z.pow_le_mono_r; unfold d in *; lia). lia.
    - destruct (Z.le_gt_cases d 106) as [H | H]; [exact H |]. exfalso.
      assert (2 ^ 106 <= 2 ^ (d - 1)) by (apply Z.pow_le_mono_r; lia). lia. }
  destruct (binary_round_aux_normal (mx * my) (ex + ey) loc_Exact)
    as (m & e & E & Hn & He & Hv & _); fold d; try lia.
  exists m, e. split; [exact E |]. split; [exact Hn |]. split; [lia |].
  rewrite Pos2Z.inj_mul in Hv. fold d in Hv.
  assert (2 ^ (d - 53) <= 2 ^ 53) by (apply Z.pow_le_mono_r; lia). lia.
Qed.

(** An upper bound on the rounded quotient of two positive normal values:
    [q] is the truncated quotient of the aligned mantissas. *)
Lemma div_normal (mx my : positive) (ex ey : Z) :
  normal53 mx -> normal53 my -> -1000 <= ex - ey <= 900 ->
  exists m e q, SFdiv 53 1024 (S754_finite false mx ex) (S754_finite false my ey)
              = S754_finite false m e
    /\ normal53 m /\ 0 <= e - (ex - ey - 53) <= 2
    /\ Zpos m * 2 ^ (e - (ex - ey - 53)) <= q + 2
    /\ q * Zpos my <= Zpos mx * 2 ^ 53.
Proof.
  intros Hx Hy He. pose proof Hx as Dx. pose proof Hy as Dy.
  apply normal53_digits in Dx, Dy. unfold normal53 in Hx, Hy.
  cbn [SFdiv xorb]. unfold SFdiv_core_binary, fexp, emin. cbn [Zdigits2].
  rewrite Dx, Dy.
  replace (53 + ex - (53 + ey)) with (ex - ey) by lia.
  rewrite (Z.max_l (ex - ey - 53)) by lia.
  rewrite Z.min_l by lia.
  replace (ex - ey - (ex - ey - 53)) with 53 by lia.
  rewrite Z.shiftl_mul_pow2 by lia.
  set (q := Zpos mx * 2 ^ 53 / Zpos my).
  assert (Eq : Z.div_eucl (Zpos mx * 2 ^ 53) (Zpos my) = (q, Zpos mx * 2 ^ 53 mod Zpos my)).
  { unfold q, Z.div, Z.modulo. destruct (Z.div_eucl _ _); reflexivity. }
  rewrite Eq.
  assert (Hqm : q * Zpos my <= Zpos mx * 2 ^ 53).
  { unfold q. rewrite Z.mul_comm. apply Z.mul_div_le. lia. }
  assert (Hq : 2 ^ 52 <= q < 2 ^ 54).
  { unfold q. split.
    - apply Z.div_le_lower_bound; [lia |]. nia.
    - apply Z.div_lt_upper_bound; [lia |]. change (2 ^ 54) with (2 * 2 ^ 53). nia. }
  destruct q as [| pq | pq] eqn:Epq; try lia.
  pose proof (digits2_pos_bounds pq) as [Plo Phi].
  set (d := Zpos (digits2_pos pq)) in *.
  assert (Hd : 53 <= d <= 54).
  { split.
    - destruct (Z.le_gt_cases 53 d) as [H | H]; [exact H |]. exfalso.
      assert (2 ^ d <= 2 ^ 52) by (apply Z.pow_le_mono_r; unfold d in *; lia). lia.
    - destruct (Z.le_gt_cases d 54) as [H | H]; [exact H |]. exfalso.
      assert (2 ^ 54 <= 2 ^ (d - 1)) by (apply Z.pow_le_mono_r; lia). lia. }
  destruct (binary_round_aux_normal pq (ex - ey - 53)
              (new_location (Zpos my) (Zpos mx * 2 ^ 53 mod Zpos my)))
    as (m & e & E & Hn & Hee & Hv & _); fold d; try lia.
  exists m, e, (Zpos pq). split; [exact E |]. split; [exact Hn |]. split; [lia |].
  split; [| exact Hqm].
  fold d in Hv.
  assert (2 ^ (d - 53) <= 2 ^ 1) by (apply Z.pow_le_mono_r; lia).
  change (2 ^ 1) with 2 in *. lia.
Qed.

(** The integer inequality behind the draw bound: the two rounding errors
    together are far smaller than the gap [1 / 233280] below 1. *)
Lemma draw_arith (my U mx k B T q M A s G W : Z) :
  0 < U -> 0 < k -> 0 < B -> 1 <= T <= 4 -> 0 < M -> 0 <= s <= M - 1 -> 10 * M < A ->
  0 < mx -> 0 <= q -> 0 <= my -> 0 < W ->
  my * U <= mx * (k * B) + 2 * (k * B) ->
  mx * T <= q + 2 ->
  q * M <= s * A ->
  G * T = A * B ->
  G = W * U ->
  my < W * k.
Proof.
  intros HU Hk HB HT HM Hs HA Hmx Hq Hmy HW H1 H2 H3 H4 H5.
  destruct (Z.lt_ge_cases my (W * k)) as [H | H]; [exact H | exfalso].
  assert (S1 : G * k <= (mx + 2) * B * k).
  { assert (W * k * U <= my * U) by (apply Z.mul_le_mono_nonneg_r; lia). subst G. lia. }
  assert (S2 : G <= (mx + 2) * B) by (apply Z.mul_le_mono_pos_r with (p := k); assumption).
  assert (S3 : A * B <= (q + 10) * B).
  { rewrite <- H4.
    assert (G * T <= (mx + 2) * B * T) by (apply Z.mul_le_mono_nonneg_r; lia).
    assert ((mx + 2) * T <= q + 10) by lia.
    assert ((mx + 2) * T * B <= (q + 10) * B) by (apply Z.mul_le_mono_nonneg_r; lia).
    lia. }
  assert (S4 : A <= q + 10) by (apply Z.mul_le_mono_pos_r with (p := B); assumption).
  assert (S5 : A * M <= (q + 10) * M) by (apply Z.mul_le_mono_nonneg_r; lia).
  assert (S6 : s * A <= (M - 1) * A) by (apply Z.mul_le_mono_nonneg_r; lia).
  lia.
Qed.

Lemma pow2_exp_lower (z m a lo hi : Z) :
  0 <= a -> 0 <= lo -> 0 < z < 2 ^ hi -> 2 ^ (lo + hi) <= m -> m = z * 2 ^ a -> lo < a.
Proof.
  intros Ha Hlo Hz Hm E. destruct (Z.lt_ge_cases lo a) as [H | H]; [exact H | exfalso].
  assert (Hhi : 0 <= hi).
  { destruct (Z.le_gt_cases 0 hi); [assumption |]. rewrite Z.pow_neg_r in Hz by lia. lia. }
  assert (2 ^ a <= 2 ^ lo) by (apply Z.pow_le_mono_r; lia).
  assert (0 < 2 ^ a) by (apply Z.pow_pos_nonneg; lia).
  rewrite Z.pow_add_r in Hm by lia.
  assert (z * 2 ^ a < 2 ^ hi * 2 ^ a) by (apply Z.mul_lt_mono_pos_r; lia).
  assert (2 ^ hi * 2 ^ a <= 2 ^ hi * 2 ^ lo) by (apply Z.mul_le_mono_nonneg_l; lia).
  lia.
Qed.

(** [Math.floor((s / 233280) * k)], computed in binary64, is below [k]. *)
Lemma floor_draw_range (s k : Z) :
  0 <= s < 233280 -> 0 < k < 2 ^ 32 ->
  0 <= Js.Math_floor (Js.mul (Js.div (Js.of_Z s) (Js.of_Z 233280)) (Js.of_Z k)) < k.
Proof.
  intros Hs Hk. unfold Js.mul, Js.div, Js.prec, Js.emax.
  destruct (of_Z_pos k) as (mk & ek & Ek & Nk & Hek & Vk);
    [split; [lia | apply Z.lt_trans with (2 ^ 32); [lia | reflexivity]] |].
  assert (EM : Js.of_Z 233280 = S754_finite false 8015439766487040 (-35)) by reflexivity.
  rewrite Ek, EM.
  destruct (Z.eq_dec s 0) as [-> | Hs0].
  { cbn. lia. }
  destruct (of_Z_pos s) as (ms & es & Es & Ns & Hes & Vs);
    [split; [lia | apply Z.lt_trans with 233280; [lia | reflexivity]] |].
  rewrite Es.
  assert (NM : normal53 8015439766487040) by (unfold normal53; cbn; lia).
  destruct (div_normal ms 8015439766487040 es (-35) Ns NM) as (mx & ex & q & Ex & Nx & Hex & Vx & Vq);
    [lia |].
  rewrite Ex.
  destruct (mul_normal mx mk ex ek Nx Nk) as (my & ey & Ey & Ny & Hey & Vy); [lia | lia |].
  rewrite Ey. cbn [Js.Math_floor cond_Zopp].
  set (a := - es) in *. set (b := - ek) in *.
  assert (Ha : 34 < a).
  { apply (pow2_exp_lower s (Zpos ms) a 34 18); try lia.
    apply Ns. }
  assert (Hb : 20 < b).
  { apply (pow2_exp_lower k (Zpos mk) b 20 32); try lia. apply Nk. }
  set (t := ex - (es - -35 - 53)) in *.
  set (u := ey - (ex + ek)) in *.
  assert (Hey0 : ey = - (a + 18 - t + b - u)) by (unfold a, b, t, u; lia).
  set (W := a + 18 - t + b - u) in *.
  assert (HW : 0 < W) by (unfold W; lia).
  rewrite Hey0, Z.shiftl_div_pow2 by lia. rewrite Z.opp_involutive.
  assert (HpW : 0 < 2 ^ W) by (apply Z.pow_pos_nonneg; lia).
  split; [apply Z.div_pos; lia |].
  apply Z.div_lt_upper_bound; [exact HpW |].
  assert (HT : 1 <= 2 ^ t <= 4).
  { split.
    - change 1 with (2 ^ 0). apply Z.pow_le_mono_r; lia.
    - change 4 with (2 ^ 2). apply Z.pow_le_mono_r; lia. }
  assert (HA : 2 ^ 53 <= 2 ^ (a + 18)) by (apply Z.pow_le_mono_r; lia).
  apply (draw_arith (Zpos my) (2 ^ u) (Zpos mx) k (2 ^ b) (2 ^ t) q 233280 (2 ^ (a + 18)) s
           (2 ^ (W + u)) (2 ^ W)); try lia.
  - destruct (Z.le_gt_cases 0 q) as [H0 | H0]; [exact H0 | exfalso].
    unfold normal53 in Nx. assert (0 < Zpos mx * 2 ^ t) by lia. lia.
  - rewrite <- Vk. unfold normal53 in Nk.
    change (2 ^ 53) with (2 * 2 ^ 52) in Vy. lia.
  - rewrite Vs in Vq. change (Zpos 8015439766487040) with (233280 * 2 ^ 35) in Vq.
    replace (s * 2 ^ a * 2 ^ 53) with (s * 2 ^ (a + 18) * 2 ^ 35) in Vq.
    + apply Z.mul_le_mono_pos_r with (p := 2 ^ 35); [reflexivity | lia].
    + rewrite <- !Z.mul_assoc, <- !Z.pow_add_r by lia. do 2 f_equal. lia.
  - rewrite <- !Z.pow_add_r by lia. f_equal. unfold W. lia.
  - rewrite Z.pow_add_r by lia. reflexivity.
Qed.

(** The sign of sums and products of values that are not negative. *)

Lemma binary_round_aux_not_negative (prec emax mx ex : Z) (lx : location) :
  not_negative (binary_round_aux prec emax false mx ex lx).
Proof.
  unfold binary_round_aux.
  destruct (shr_fexp prec emax mx ex lx) as [mrs' e'].
  destruct (shr_fexp prec emax _ e' loc_Exact) as [mrs'' e''].
  destruct (shr_m mrs''); cbn; [exact I | | exact I].
  destruct (e'' <=? emax - prec); reflexivity.
Qed.

Lemma binary_normalize_not_negative (prec emax m e : Z) :
  0 <= m -> not_negative (binary_normalize prec emax m e false).
Proof.
  intros Hm. destruct m as [| p | p]; cbn; [exact I | | lia].
  unfold binary_round. destruct (shl_align _ _ _) as [mz ez].
  apply binary_round_aux_not_negative.
Qed.

Lemma SFmul_not_negative (prec emax : Z) (x y : spec_float) :
  not_negative x -> not_negative y -> not_negative (SFmul prec emax x y).
Proof.
  destruct x as [sx | sx | | sx mx ex], y as [sy | sy | | sy my ey]; cbn;
    intros Hx Hy; subst; try exact I; try reflexivity.
  apply binary_round_aux_not_negative.
Qed.

Lemma SFadd_not_negative (prec emax : Z) (x y : spec_float) :
  not_negative x -> not_negative y -> not_negative (SFadd prec emax x y).
Proof.
  destruct x as [sx | sx | | sx mx ex], y as [sy | sy | | sy my ey]; cbn;
    intros Hx Hy; subst; try exact I; try reflexivity.
  - destruct sx, sy; exact I.
  - apply binary_normalize_not_negative. cbn. lia.
Qed.

Lemma Math_floor_not_negative (x : spec_float) : not_negative x -> 0 <= Js.Math_floor x.
Proof.
  destruct x as [s | s | | s m e]; cbn; intros H; try lia.
  subst. cbn. apply Z.shiftl_nonneg. lia.
Qed.

(** ** Loops *)

Lemma for_loop_snoc {S : Type} (count start step : nat) (body : nat -> S -> S) (s : S) :
  for_loop (Datatypes.S count) start step body s
  = body (start + count * step)%nat (for_loop count start step body s).
Proof.
  revert start s. induction count as [| count IH]; intros start s.
  - cbn. f_equal. lia.
  - change (for_loop (Datatypes.S (Datatypes.S count)) start step body s)
      with (for_loop (Datatypes.S count) (start + step)%nat step body (body start s)).
    rewrite IH. cbn [for_loop]. f_equal. lia.
Qed.

(** A loop that only ever writes slot [i] of an array leaves its length alone. *)
Lemma for_loop_length {A : Type} (count start step : nat)
    (body : nat -> list A -> list A) (l : list A) :
  (forall i x, length (body i x) = length x) ->
  length (for_loop count start step body l) = length l.
Proof.
  intros E. revert start l. induction count as [| count IH]; intros start l; cbn.
  - reflexivity.
  - rewrite IH. apply E.
Qed.

(** ** Binary digit strings *)

Lemma parseInt2_value (s : list bool) : s <> [] -> parseInt2 s = Some (bits_value s).
Proof. destruct s; [congruence | reflexivity]. Qed.

Lemma bits_value_snoc (s : list bool) (b : bool) :
  bits_value (s ++ [b]) = 2 * bits_value s + Z.b2z b.
Proof. unfold bits_value. rewrite fold_left_app. reflexivity. Qed.

Lemma bits_value_zeros (n : nat) (s : list bool) :
  bits_value (replicate n false ++ s) = bits_value s.
Proof.
  unfold bits_value. rewrite fold_left_app.
  replace (fold_left (fun acc b => 2 * acc + Z.b2z b) (replicate n false) 0) with 0;
    [reflexivity |].
  induction n as [| n IH]; cbn; [reflexivity | exact IH].
Qed.

Lemma bits_value_pos_binary (p : positive) : bits_value (pos_binary p) = Zpos p.
Proof.
  induction p as [p IH | p IH |]; cbn [pos_binary].
  - rewrite bits_value_snoc, IH. cbn. lia.
  - rewrite bits_value_snoc, IH. cbn. lia.
  - reflexivity.
Qed.

Lemma length_pos_binary (p : positive) :
  Z.of_nat (length (pos_binary p)) = Zpos (digits2_pos p).
Proof.
  induction p as [p IH | p IH |]; cbn [pos_binary digits2_pos].
  - rewrite length_app. cbn [length]. lia.
  - rewrite length_app. cbn [length]. lia.
  - reflexivity.
Qed.

Lemma length_toString2 (n : Z) (k : nat) :
  (0 < k)%nat -> 0 <= n < 2 ^ Z.of_nat k -> (length (toString2 n) <= k)%nat.
Proof.
  intros Hk [Hn0 Hn]. destruct n as [| p | p]; cbn [toString2]; try (cbn; lia).
  pose proof (length_pos_binary p) as HL. pose proof (digits2_pos_bounds p) as [Blo _].
  destruct (Z.le_gt_cases (Zpos (digits2_pos p)) (Z.of_nat k)) as [H | H]; [lia |].
  exfalso.
  assert (2 ^ Z.of_nat k <= 2 ^ (Zpos (digits2_pos p) - 1)) by (apply Z.pow_le_mono_r; lia).
  lia.
Qed.

Lemma bits_value_toString2 (n : Z) : 0 <= n -> bits_value (toString2 n) = n.
Proof.
  intros Hn. destruct n as [| p | p]; [reflexivity | apply bits_value_pos_binary | lia].
Qed.

Lemma length_padStart (k : nat) (s : list bool) :
  (length s <= k)%nat -> length (padStart k s) = k.
Proof. intros H. unfold padStart. rewrite length_app, length_replicate. lia. Qed.

Lemma length_padStart_ge (k : nat) (s : list bool) : (k <= length (padStart k s))%nat.
Proof. unfold padStart. rewrite length_app, length_replicate. lia. Qed.

Lemma bits_value_padStart (k : nat) (s : list bool) :
  bits_value (padStart k s) = bits_value s.
Proof. apply bits_value_zeros. Qed.

Lemma length_byte_bits (byte : Z) : is_byte byte -> length (byte_bits byte) = 8%nat.
Proof.
  intros H. apply length_padStart. apply length_toString2; [lia |]. exact H.
Qed.

Lemma bits_value_byte_bits (byte : Z) : is_byte byte -> bits_value (byte_bits byte) = byte.
Proof.
  intros [H _]. unfold byte_bits. rewrite bits_value_padStart. apply bits_value_toString2, H.
Qed.

Lemma length_bytesToBinary (bytes : list Z) :
  Forall is_byte bytes -> length (bytesToBinary bytes) = (8 * length bytes)%nat.
Proof.
  unfold bytesToBinary. induction 1 as [| b bs Hb _ IH]; cbn [map concat length].
  - reflexivity.
  - rewrite length_app, IH. fold (byte_bits b). rewrite length_byte_bits by exact Hb. lia.
Qed.

(** Without the byte range, each element still contributes at least 8 digits. *)
Lemma length_bytesToBinary_ge (bytes : list Z) :
  (8 * length bytes <= length (bytesToBinary bytes))%nat.
Proof.
  unfold bytesToBinary. induction bytes as [| b bs IH]; cbn [map concat length].
  - lia.
  - rewrite length_app. pose proof (length_padStart_ge 8 (toString2 b)). lia.
Qed.

Lemma slice_bytesToBinary (bytes : list Z) (t : nat) (b : Z) :
  Forall is_byte bytes -> bytes !! t = Some b ->
  slice (8 * t) (8 * t + 8) (bytesToBinary bytes) = byte_bits b.
Proof.
  intros Hall. revert t. unfold slice.
  induction Hall as [| x xs Hx Hxs IH]; intros t Ht; [discriminate |].
  unfold bytesToBinary. cbn [map concat]. fold (byte_bits x). fold (bytesToBinary xs).
  pose proof (length_byte_bits x Hx) as L.
  destruct t as [| t].
  - injection Ht as ->.
    transitivity (take (length (byte_bits b)) (byte_bits b ++ bytesToBinary xs));
      [rewrite L; reflexivity | apply take_app_length].
  - cbn [lookup list_lookup] in Ht.
    replace (8 * Datatypes.S t)%nat with (length (byte_bits x) + 8 * t)%nat by lia.
    rewrite drop_app_add.
    replace (length (byte_bits x) + 8 * t + 8 - (length (byte_bits x) + 8 * t))%nat
      with (8 * t + 8 - 8 * t)%nat by lia.
    apply IH. exact Ht.
Qed.

(** The packing loop after [count] iterations over an array of [n] bytes. *)
Lemma pack_loop (g : nat -> Z) (n count : nat) :
  for_loop count 0 8 (fun i bytes => <[(i / 8)%nat := g i]> bytes) (replicate n 0)
  = map (fun t => g (8 * t)%nat) (seq 0 (min count n)) ++ replicate (n - min count n) 0.
Proof.
  induction count as [| count IH].
  - cbn. rewrite Nat.sub_0_r. reflexivity.
  - rewrite for_loop_snoc, IH.
    replace (0 + count * 8)%nat with (8 * count)%nat by lia.
    replace (8 * count / 8)%nat with count by (rewrite Nat.mul_comm, Nat.div_mul; lia).
    destruct (Nat.lt_ge_cases count n) as [Hlt | Hge].
    + rewrite (Nat.min_l count n), (Nat.min_l (Datatypes.S count) n) by lia.
      rewrite insert_app_r_alt by (rewrite length_map, length_seq; lia).
      rewrite length_map, length_seq, Nat.sub_diag.
      replace (n - count)%nat with (Datatypes.S (n - Datatypes.S count)) by lia.
      cbn [replicate]. rewrite seq_S, map_app. cbn [map Nat.add].
      rewrite <- app_assoc. reflexivity.
    + rewrite (Nat.min_r count n), (Nat.min_r (Datatypes.S count) n) by lia.
      apply list_insert_ge. rewrite length_app, length_map, length_seq, length_replicate. lia.
Qed.

Lemma binaryToBytes_spec (bin : list bool) :
  binaryToBytes bin = map (packed_byte bin) (seq 0 (length bin / 8)).
Proof.
  unfold binaryToBytes.
  rewrite (pack_loop (fun i => default 0 (parseInt2 (slice i (i + 8) bin)) mod 256)).
  assert (H : (length bin / 8 <= (length bin + 7) / 8)%nat).
  { apply Nat.Div0.div_le_mono. lia. }
  rewrite Nat.min_r by exact H. rewrite Nat.sub_diag. cbn [replicate].
  rewrite app_nil_r. reflexivity.
Qed.

Lemma length_binaryToBytes (bin : list bool) :
  length (binaryToBytes bin) = (length bin / 8)%nat.
Proof. rewrite binaryToBytes_spec, length_map, length_seq. reflexivity. Qed.

Lemma binaryToBytes_lookup (bin : list bool) (t : nat) :
  (t < length bin / 8)%nat -> binaryToBytes bin !! t = Some (packed_byte bin t).
Proof.
  intros H. rewrite binaryToBytes_spec.
  change (map (packed_byte bin)) with (fmap (M := list) (packed_byte bin)).
  rewrite list_lookup_fmap, lookup_seq_lt by exact H. reflexivity.
Qed.

Lemma byte_bits_nonempty (b : Z) : byte_bits b <> [].
Proof.
  intros E. pose proof (length_padStart_ge 8 (toString2 b)) as H.
  fold (byte_bits b) in H. rewrite E in H. cbn in H. lia.
Qed.

(** Packing undoes unpacking. *)
Lemma binaryToBytes_bytesToBinary (bytes : list Z) :
  Forall is_byte bytes -> binaryToBytes (bytesToBinary bytes) = bytes.
Proof.
  intros Hall. apply list_eq. intros t.
  destruct (bytes !! t) as [b |] eqn:Et.
  - assert (Ht : (t < length bytes)%nat) by (apply lookup_lt_is_Some; eauto).
    rewrite binaryToBytes_lookup.
    + f_equal. unfold packed_byte.
      rewrite (slice_bytesToBinary bytes t b Hall Et).
      rewrite parseInt2_value by apply byte_bits_nonempty. cbn [default].
      assert (Hb : is_byte b) by (eapply Forall_lookup_1; eauto).
      rewrite bits_value_byte_bits by exact Hb. apply Z.mod_small. exact Hb.
    + rewrite length_bytesToBinary by exact Hall.
      rewrite Nat.mul_comm, Nat.div_mul by lia. exact Ht.
  - apply lookup_ge_None. rewrite length_binaryToBytes, length_bytesToBinary by exact Hall.
    rewrite Nat.mul_comm, Nat.div_mul by lia. apply lookup_ge_None. exact Et.
Qed.

(** ** The shuffle *)

Lemma transpose_involutive (i j k : nat) : transpose i j (transpose i j k) = k.
Proof. unfold transpose. repeat case_decide; congruence. Qed.

Lemma transpose_inj (i j : nat) : Inj (=) (=) (transpose i j).
Proof.
  intros k1 k2 E. rewrite <- (transpose_involutive i j k1), E. apply transpose_involutive.
Qed.

Lemma length_swap (a : list nat) (i j : nat) : length (swap a i j) = length a.
Proof.
  unfold swap. destruct (a !! j), (a !! i); try reflexivity.
  rewrite !length_insert. reflexivity.
Qed.

(** With both indices inside the array, [swap] is the assignment pair of
    the source. *)
Lemma swap_in_range (a : list nat) (i j : nat) :
  (i < length a)%nat -> (j < length a)%nat ->
  swap a i j = <[j := a !!! i]> (<[i := a !!! j]> a).
Proof.
  intros Hi Hj. unfold swap.
  destruct (lookup_lt_is_Some_2 a i Hi) as [ai Eai].
  destruct (lookup_lt_is_Some_2 a j Hj) as [aj Eaj].
  rewrite Eai, Eaj.
  rewrite (list_lookup_total_correct a i ai Eai), (list_lookup_total_correct a j aj Eaj).
  reflexivity.
Qed.

(** [swap] either leaves the array alone or exchanges two of its positions. *)
Lemma swap_cases (a : list nat) (i j : nat) :
  swap a i j = a
  \/ ((i < length a)%nat /\ (j < length a)%nat
      /\ forall k, swap a i j !! k = a !! transpose i j k).
Proof.
  unfold swap. destruct (a !! j) as [aj |] eqn:Ej; [| left; reflexivity].
  destruct (a !! i) as [ai |] eqn:Ei; [| left; reflexivity].
  right.
  assert (Hi : (i < length a)%nat) by (apply lookup_lt_is_Some; eauto).
  assert (Hj : (j < length a)%nat) by (apply lookup_lt_is_Some; eauto).
  split; [exact Hi |]. split; [exact Hj |].
  intros k. unfold transpose.
  destruct (decide (k = j)) as [-> | Hkj].
  - rewrite list_lookup_insert_eq by (rewrite length_insert; exact Hj).
    case_decide; congruence.
  - rewrite list_lookup_insert_ne by congruence.
    destruct (decide (k = i)) as [-> | Hki].
    + rewrite list_lookup_insert_eq by exact Hi. congruence.
    + rewrite list_lookup_insert_ne by congruence. reflexivity.
Qed.

Lemma swap_Permutation (a : list nat) (i j : nat) : swap a i j ≡ₚ a.
Proof.
  destruct (swap_cases a i j) as [E | (_ & _ & E)]; [rewrite E; reflexivity |].
  apply Permutation_inj. split; [apply length_swap |].
  exists (transpose i j). split; [apply transpose_inj | exact E].
Qed.

Lemma shuffle_from_Permutation (i : nat) (rng : SeededRandom.t) (a : list nat) :
  shuffle_from i rng a ≡ₚ a.
Proof.
  revert rng a. induction i as [| i IH]; intros rng a; cbn [shuffle_from].
  - reflexivity.
  - destruct (SeededRandom.next rng) as [rng' x]. rewrite IH. apply swap_Permutation.
Qed.

Lemma chaotic_shuffle_Permutation (seed : js_string) (a : list nat) :
  chaotic_shuffle seed a ≡ₚ a.
Proof.
  unfold chaotic_shuffle. destruct seed; [reflexivity | apply shuffle_from_Permutation].
Qed.

Lemma next_state_range (rng : SeededRandom.t) :
  0 <= rng -> 0 <= fst (SeededRandom.next rng) < 233280.
Proof.
  intros H. cbn [SeededRandom.next fst]. unfold Js.rem.
  assert (Hx : 0 <= Js.Math_floor
                      (Js.add (Js.mul (Js.of_Z rng) (Js.of_Z 9301)) (Js.of_Z 49297))).
  { apply Math_floor_not_negative, SFadd_not_negative.
    - apply SFmul_not_negative; apply binary_normalize_not_negative; lia.
    - apply binary_normalize_not_negative. lia. }
  rewrite Z.rem_mod_nonneg by lia. apply Z.mod_pos_bound. lia.
Qed.

Lemma next_fraction (rng : SeededRandom.t) :
  snd (SeededRandom.next rng)
  = Js.div (Js.of_Z (fst (SeededRandom.next rng))) (Js.of_Z 233280).
Proof. reflexivity. Qed.

(** From a non-negative generator state, every draw stays in its prefix. *)
Lemma shuffle_draws_in_range (i : nat) (rng : SeededRandom.t) :
  Z.of_nat i < 2 ^ 32 - 1 -> 0 <= rng -> draws_in_range i rng.
Proof.
  revert rng. induction i as [| i IH]; intros rng Hi Hrng; cbn [draws_in_range].
  - exact I.
  - pose proof (next_state_range rng Hrng) as Hst.
    pose proof (next_fraction rng) as Hx.
    destruct (SeededRandom.next rng) as [rng' x]. cbn [fst snd] in Hst, Hx. subst x.
    split.
    + unfold draw.
      pose proof (floor_draw_range rng' (Z.of_nat (Datatypes.S i) + 1) Hst) as H.
      lia.
    + apply IH; lia.
Qed.

Lemma Array_from_cons2 (c d : Z) (rest : js_string) :
  Array_from (c :: d :: rest)
  = if is_high_surrogate c && is_low_surrogate d
    then [c; d] :: Array_from rest
    else [c] :: Array_from (d :: rest).
Proof. reflexivity. Qed.

Lemma seed_sum_nonneg (seedStr : js_string) :
  Forall (fun c => 0 <= c) seedStr -> 0 <= SeededRandom.new seedStr.
Proof.
  intros Hall. unfold SeededRandom.new.
  assert (G : forall (chars : list js_string) acc,
             Forall (fun ch => 0 <= charCodeAt0 ch) chars -> 0 <= acc ->
             0 <= fold_left (fun acc char => acc + charCodeAt0 char) chars acc).
  { induction chars as [| ch chars IH]; intros acc Hc Hacc; cbn [fold_left]; [exact Hacc |].
    inversion Hc; subst. apply IH; [assumption | lia]. }
  apply G; [| lia]. clear G.
  assert (G : forall n s, (length s <= n)%nat -> Forall (fun c => 0 <= c) s ->
             Forall (fun ch => 0 <= charCodeAt0 ch) (Array_from s)).
  { induction n as [| n IH]; intros s Hn Hs.
    - destruct s; [constructor | cbn in Hn; lia].
    - destruct s as [| c [| d rest]]; [constructor | |].
      + constructor; [| constructor]. cbn. inversion Hs; assumption.
      + rewrite Array_from_cons2.
        inversion Hs as [| ? ? Hc Hs']; subst. inversion Hs' as [| ? ? Hd Hs'']; subst.
        cbn [length] in Hn.
        destruct (is_high_surrogate c && is_low_surrogate d);
          (constructor; [cbn; exact Hc |]); apply IH; cbn [length]; try lia; assumption. }
  apply (G (length seedStr)); [lia | exact Hall].
Qed.

(** ** Usable slots *)

Lemma available_indices_filter (len : nat) :
  available_indices len = filter is_rgb (seq 0 len).
Proof.
  unfold available_indices. induction len as [| len IH].
  - reflexivity.
  - rewrite for_loop_snoc, IH, seq_S, filter_app.
    replace (0 + len * 1)%nat with len by lia. cbn [Nat.add].
    rewrite filter_cons, filter_nil. unfold is_rgb.
    destruct (decide ((len + 1) mod 4 <> 0)%nat); [reflexivity | symmetry; apply app_nil_r].
Qed.

Lemma available_indices_NoDup (len : nat) : NoDup (available_indices len).
Proof. rewrite available_indices_filter. apply NoDup_filter, NoDup_seq. Qed.

Lemma available_indices_elem (len p : nat) :
  p ∈ available_indices len <-> is_rgb p /\ (p < len)%nat.
Proof.
  rewrite available_indices_filter, list_elem_of_filter, elem_of_seq. intuition lia.
Qed.

Lemma identity_indices_seq (n : nat) : identity_indices n = seq 0 n.
Proof.
  unfold identity_indices.
  assert (G : forall c, (c <= n)%nat ->
            for_loop c 0 1 (fun i a => <[i := i]> a) (replicate n 0%nat)
            = seq 0 c ++ replicate (n - c) 0%nat).
  { induction c as [| c IH]; intros Hc.
    - cbn. rewrite Nat.sub_0_r. reflexivity.
    - rewrite for_loop_snoc, IH by lia.
      replace (0 + c * 1)%nat with c by lia.
      rewrite insert_app_r_alt by (rewrite length_seq; lia).
      rewrite length_seq, Nat.sub_diag.
      replace (n - c)%nat with (Datatypes.S (n - Datatypes.S c)) by lia.
      cbn [replicate]. rewrite seq_S, <- app_assoc. reflexivity. }
  rewrite G by lia. rewrite Nat.sub_diag. apply app_nil_r.
Qed.

Lemma pixel_slots_Permutation (len : nat) (seed : option js_string) :
  pixel_slots len seed ≡ₚ available_indices len.
Proof. apply chaotic_shuffle_Permutation. Qed.

Lemma length_pixel_slots (len : nat) (seed : option js_string) :
  length (pixel_slots len seed) = length (available_indices len).
Proof. apply Permutation_length, pixel_slots_Permutation. Qed.

Lemma pixel_slots_NoDup (len : nat) (seed : option js_string) :
  NoDup (pixel_slots len seed).
Proof. rewrite pixel_slots_Permutation. apply available_indices_NoDup. Qed.

Lemma pixel_slots_elem (len : nat) (seed : option js_string) (p : nat) :
  p ∈ pixel_slots len seed <-> is_rgb p /\ (p < len)%nat.
Proof. rewrite pixel_slots_Permutation. apply available_indices_elem. Qed.

Lemma audio_slots_Permutation (n : nat) (seed : option js_string) :
  audio_slots n seed ≡ₚ seq 0 n.
Proof. unfold audio_slots. rewrite chaotic_shuffle_Permutation. rewrite identity_indices_seq. reflexivity. Qed.

(** ** Writing a low bit *)

Lemma land_low_byte (v mask : Z) :
  0 <= mask < 256 -> Z.land v mask = Z.land (v mod 256) mask.
Proof.
  intros Hm. change 256 with (2 ^ 8). rewrite <- Z.land_ones by lia.
  rewrite <- Z.land_assoc. f_equal.
  change (Z.ones 8) with 255. symmetry.
  change 255 with (Z.ones 8). rewrite Z.land_comm, Z.land_ones by lia.
  apply Z.mod_small. exact Hm.
Qed.

Lemma low_bit_table : low_bit_table_ok = true.
Proof. vm_compute. reflexivity. Qed.

Lemma with_low_bit_byte (v : Z) (bit : bool) :
  is_byte v ->
  is_byte (with_low_bit v bit)
  /\ Z.land (with_low_bit v bit) 1 = Z.b2z bit
  /\ Z.land (with_low_bit v bit) 254 = Z.land v 254.
Proof.
  intros Hv. pose proof low_bit_table as T. unfold low_bit_table_ok in T.
  rewrite forallb_forall in T.
  specialize (T v). rewrite forallb_forall in T.
  assert (Hin : In v (map Z.of_nat (seq 0 256))).
  { apply in_map_iff. exists (Z.to_nat v). split; [unfold is_byte in Hv; lia |].
    apply in_seq. unfold is_byte in Hv. lia. }
  specialize (T Hin bit).
  assert (Hb : In bit [false; true]) by (destruct bit; cbn; auto).
  specialize (T Hb). cbv zeta in T.
  apply andb_prop in T as [T T4]. apply andb_prop in T as [T T3].
  apply andb_prop in T as [T1 T2].
  unfold is_byte. apply Z.leb_le in T1. apply Z.ltb_lt in T2.
  apply Z.eqb_eq in T3, T4. auto.
Qed.

Lemma with_low_bit_mod (v : Z) (bit : bool) :
  with_low_bit v bit = with_low_bit (v mod 256) bit.
Proof. unfold with_low_bit. rewrite (land_low_byte v 254) by lia. reflexivity. Qed.

(** Whatever the component held, reading its low bit back gives the bit
    written. *)
Lemma with_low_bit_read (v : Z) (bit : bool) :
  Z.eqb (Z.land (with_low_bit v bit) 1) 1 = bit.
Proof.
  rewrite with_low_bit_mod.
  assert (Hv : is_byte (v mod 256)) by (apply Z.mod_pos_bound; lia).
  destruct (with_low_bit_byte (v mod 256) bit Hv) as (_ & E & _).
  rewrite E. destruct bit; reflexivity.
Qed.

(** ** The embedding loop, on the buffer it writes *)

(** The embedding loop only touches the clone: it is [embed_bits] on the
    buffer at [l]. *)
Lemma embed_loop_on_heap (slots : list nat) (bits : list bool) (l : loc) (h : heap)
    (n start : nat) (d : list Z) :
  for_loop n start 1
    (fun i h =>
       match slots !! i, bits !! i with
       | Some pixelIndex, Some bit =>
           store8 h l pixelIndex (Z.lor (load_and (h !!! l) pixelIndex 254) (Z.b2z bit))
       | _, _ => h
       end)
    (<[l := d]> h)
  = <[l := for_loop n start 1 (embed_bit slots bits) d]> h.
Proof.
  revert start d. induction n as [| n IH]; intros start d; cbn [for_loop].
  - reflexivity.
  - rewrite <- IH. f_equal. unfold embed_bit, store8, load_and, with_low_bit.
    destruct (slots !! start), (bits !! start); try reflexivity.
    rewrite lookup_total_insert_eq, insert_insert_eq. reflexivity.
Qed.

Lemma length_embed_bit (slots : list nat) (bits : list bool) (i : nat) (d : list Z) :
  length (embed_bit slots bits i d) = length d.
Proof.
  unfold embed_bit. destruct (slots !! i), (bits !! i); try reflexivity. apply length_insert.
Qed.

Lemma length_embed_bits (slots : list nat) (bits : list bool) (n : nat) (d : list Z) :
  length (embed_bits slots bits n d) = length d.
Proof. apply for_loop_length. intros. apply length_embed_bit. Qed.

Lemma embed_bits_S (slots : list nat) (bits : list bool) (n : nat) (d : list Z) :
  embed_bits slots bits (Datatypes.S n) d
  = embed_bit slots bits n (embed_bits slots bits n d).
Proof.
  unfold embed_bits. rewrite for_loop_snoc. f_equal. lia.
Qed.

(** A component outside the first [n] slots is not touched. *)
Lemma embed_bits_other (slots : list nat) (bits : list bool) (n : nat) (d : list Z) (p : nat) :
  p ∉ take n slots -> embed_bits slots bits n d !! p = d !! p.
Proof.
  induction n as [| n IH]; intros Hp; [reflexivity |].
  rewrite embed_bits_S. unfold embed_bit.
  destruct (slots !! n) as [q |] eqn:Eq.
  - rewrite (take_S_r slots n q Eq) in Hp.
    apply not_elem_of_app in Hp as [Hp1 Hp2].
    destruct (bits !! n); [| apply IH, Hp1].
    rewrite list_lookup_insert_ne; [apply IH, Hp1 |].
    intros ->. apply Hp2. constructor.
  - apply IH. apply lookup_ge_None in Eq.
    rewrite take_ge in Hp by lia. rewrite take_ge by lia. exact Hp.
Qed.

(** The component at slot [i < n] holds its old upper bits and bit [i]. *)
Lemma embed_bits_written (slots : list nat) (bits : list bool) (n : nat) (d : list Z)
    (i p : nat) (b : bool) :
  NoDup slots -> (i < n)%nat -> slots !! i = Some p -> bits !! i = Some b ->
  (p < length d)%nat ->
  embed_bits slots bits n d !! p = Some (with_low_bit (default 0 (d !! p)) b).
Proof.
  intros Hnd Hi Hsi Hbi Hp. induction n as [| n IH]; [lia |].
  rewrite embed_bits_S. unfold embed_bit.
  destruct (decide (i = n)) as [-> | Hne].
  - rewrite Hsi, Hbi.
    rewrite list_lookup_insert_eq by (rewrite length_embed_bits; exact Hp).
    rewrite embed_bits_other; [reflexivity |].
    intros Hin. apply list_elem_of_lookup in Hin as [k Hk].
    assert (Hkn : (k < n)%nat).
    { apply lookup_lt_Some in Hk. rewrite length_take in Hk. lia. }
    rewrite lookup_take_lt in Hk by exact Hkn.
    pose proof (NoDup_lookup slots k n p Hnd Hk Hsi). lia.
  - assert (Hin : (i < n)%nat) by lia. specialize (IH Hin).
    destruct (slots !! n) as [q |] eqn:Eq; [| exact IH].
    destruct (bits !! n); [| exact IH].
    rewrite list_lookup_insert_ne; [exact IH |].
    intros ->. pose proof (NoDup_lookup slots i n p Hnd Hsi Eq). lia.
Qed.

Lemma read_bit_embedded (slots : list nat) (bits : list bool) (n : nat) (d : list Z)
    (i : nat) (b : bool) :
  NoDup slots -> (forall p, p ∈ slots -> (p < length d)%nat) ->
  (i < n)%nat -> (i < length slots)%nat -> bits !! i = Some b ->
  read_bit (embed_bits slots bits n d) slots i = b.
Proof.
  intros Hnd Hin Hi Hlen Hb. unfold read_bit, load_and.
  destruct (lookup_lt_is_Some_2 slots i Hlen) as [p Ep]. rewrite Ep.
  assert (Hp : (p < length d)%nat) by (apply Hin, list_elem_of_lookup; eauto).
  rewrite (embed_bits_written slots bits n d i p b Hnd Hi Ep Hb Hp). cbn [default].
  apply with_low_bit_read.
Qed.

Lemma map_seq_slice {A : Type} (f : nat -> A) (l : list A) (from count : nat) :
  (forall i x, (from <= i < from + count)%nat -> l !! i = Some x -> f i = x) ->
  (from + count <= length l)%nat ->
  map f (seq from count) = take count (drop from l).
Proof.
  intros Hf Hlen. apply list_eq. intros t.
  change (map f) with (fmap (M := list) f). rewrite list_lookup_fmap.
  destruct (Nat.lt_ge_cases t count) as [Ht | Ht].
  - rewrite lookup_seq_lt by exact Ht. rewrite lookup_take_lt by exact Ht.
    rewrite lookup_drop. cbn [fmap option_fmap option_map].
    destruct (lookup_lt_is_Some_2 l (from + t)) as [x Ex]; [lia |].
    rewrite Ex. f_equal. apply Hf; [lia | exact Ex].
  - rewrite lookup_seq_ge by exact Ht. rewrite lookup_take_ge by exact Ht. reflexivity.
Qed.

(** ** The pixel codec *)

Lemma encodeMessage_fits (h : heap) (imageData : ImageData.t) (P payload : list Z)
    (seed : option js_string) :
  h !! ImageData.data imageData = Some P ->
  (length (total_bits payload) <= length (available_indices (length P)))%nat ->
  encodeMessage h imageData payload seed
  = (<[fresh (dom h) :=
         embed_bits (pixel_slots (length P) seed) (total_bits payload)
           (length (total_bits payload)) P]> h,
     Some (ImageData.Build (fresh (dom h)) (ImageData.width imageData)
             (ImageData.height imageData))).
Proof.
  intros HP Hfit. unfold encodeMessage. cbv zeta.
  rewrite (lookup_total_correct h _ P HP). fold (total_bits payload).
  destruct (Nat.ltb_spec (length (available_indices (length P)))
              (length (total_bits payload))) as [Hlt | _]; [lia |].
  rewrite embed_loop_on_heap. reflexivity.
Qed.

Lemma encodeMessage_overflow (h : heap) (imageData : ImageData.t) (P payload : list Z)
    (seed : option js_string) :
  h !! ImageData.data imageData = Some P ->
  (length (available_indices (length P)) < length (total_bits payload))%nat ->
  encodeMessage h imageData payload seed = (h, None).
Proof.
  intros HP Hover. unfold encodeMessage. cbv zeta.
  rewrite (lookup_total_correct h _ P HP). fold (total_bits payload).
  destruct (Nat.ltb_spec (length (available_indices (length P)))
              (length (total_bits payload))) as [_ | Hge]; [reflexivity | lia].
Qed.

Lemma length_header (n : nat) :
  Z.of_nat n < 2 ^ 32 -> length (padStart 32 (toString2 (Z.of_nat n))) = 32%nat.
Proof.
  intros H. apply length_padStart. apply length_toString2; [lia |].
  split; [lia | exact H].
Qed.

Lemma length_total_bits (payload : list Z) :
  Forall is_byte payload -> 8 * Z.of_nat (length payload) < 2 ^ 32 ->
  length (total_bits payload) = (32 + 8 * length payload)%nat.
Proof.
  intros Hb Hlen. unfold total_bits.
  rewrite length_app, length_bytesToBinary by exact Hb.
  rewrite length_header by lia. reflexivity.
Qed.

(** Extraction from a buffer that carries [total_bits payload] in the low
    bits of [slots]. *)
Lemma decode_embedded (h : heap) (encoded : ImageData.t) (seed : option js_string)
    (P payload : list Z) :
  h !! ImageData.data encoded
  = Some (embed_bits (pixel_slots (length P) seed) (total_bits payload)
            (length (total_bits payload)) P) ->
  payload <> [] -> Forall is_byte payload -> 8 * Z.of_nat (length payload) < 2 ^ 32 ->
  (8 * length payload + 32 <= length (available_indices (length P)))%nat ->
  decodeMessage h encoded seed = Some payload.
Proof.
  intros HW Hne Hb Hlen Hfit.
  pose proof (length_total_bits payload Hb Hlen) as LT.
  pose proof (length_bytesToBinary payload Hb) as LB.
  assert (LH : length (padStart 32 (toString2 (Z.of_nat (length (bytesToBinary payload)))))
               = 32%nat) by (apply length_header; lia).
  set (slots := pixel_slots (length P) seed) in *.
  set (W := embed_bits slots (total_bits payload) (length (total_bits payload)) P) in *.
  assert (Hread : forall i b, (i < length (total_bits payload))%nat ->
                   total_bits payload !! i = Some b -> read_bit W slots i = b).
  { intros i b Hi Ei. unfold W. apply read_bit_embedded.
    - apply pixel_slots_NoDup.
    - intros p Hp. apply pixel_slots_elem in Hp. lia.
    - exact Hi.
    - unfold slots. rewrite length_pixel_slots. lia.
    - exact Ei. }
  unfold decodeMessage. cbv zeta.
  rewrite (lookup_total_correct h _ W HW).
  replace (length W) with (length P) by (unfold W; rewrite length_embed_bits; reflexivity).
  change (chaotic_shuffle (default DEFAULT_SEED seed) (available_indices (length P)))
    with slots.
  assert (EH : map (read_bit W slots) (seq 0 32)
               = padStart 32 (toString2 (Z.of_nat (length (bytesToBinary payload))))).
  { rewrite (map_seq_slice (read_bit W slots) (total_bits payload) 0 32).
    - cbn [drop]. unfold total_bits. rewrite <- LH at 1. apply take_app_length.
    - intros i x Hi Ei. apply Hread; [lia | exact Ei].
    - lia. }
  rewrite EH.
  rewrite parseInt2_value by (intros E; rewrite E in LH; discriminate).
  rewrite bits_value_padStart, bits_value_toString2 by lia.
  rewrite LB.
  assert (Hpos : (0 < length payload)%nat) by (destruct payload; [congruence | cbn; lia]).
  unfold slots at 1. rewrite length_pixel_slots.
  destruct (Z.leb_spec (Z.of_nat (8 * length payload)) 0) as [Hle | _]; [lia |].
  destruct (Z.ltb_spec (Z.of_nat (length (available_indices (length P))) - 32)
              (Z.of_nat (8 * length payload))) as [Hlt | _]; [lia |].
  cbn [orb]. rewrite Nat2Z.id. f_equal.
  rewrite (map_seq_slice (read_bit W slots) (total_bits payload) 32).
  - unfold total_bits. rewrite <- LH at 1. rewrite drop_app_length.
    rewrite <- LB. rewrite firstn_all. apply binaryToBytes_bytesToBinary, Hb.
  - intros i x Hi Ei. apply Hread; [lia | exact Ei].
  - lia.
Qed.

(** Embedding a non-empty payload that fits and extracting it with the same
    [seed] argument gives the payload back. *)
Lemma encode_then_decode (h : heap) (imageData : ImageData.t) (P payload : list Z)
    (seed : option js_string) :
  h !! ImageData.data imageData = Some P ->
  payload <> [] -> Forall is_byte payload -> 8 * Z.of_nat (length payload) < 2 ^ 32 ->
  (8 * length payload + 32 <= length (available_indices (length P)))%nat ->
  exists h' encoded,
    encodeMessage h imageData payload seed = (h', Some encoded)
    /\ decodeMessage h' encoded seed = Some payload.
Proof.
  intros HP Hne Hb Hlen Hfit.
  pose proof (length_total_bits payload Hb Hlen) as LT.
  eexists _, _. split.
  - apply (encodeMessage_fits h imageData P payload seed HP). lia.
  - apply (decode_embedded _ _ seed P payload); try assumption.
    cbn [ImageData.data]. apply lookup_insert_eq.
Qed.

(** Closes [Forall is_byte l] for a list of literals. *)
Ltac byte_list := repeat constructor; unfold is_byte; lia.

(** ** Claims about the pixel codec *)

(** C1, as stated, fails: an empty payload fits a carrier of 33 usable
    slots, is embedded, and extraction then rejects the zero length header
    and returns [null] instead of the empty payload. *)
Lemma pixel_roundtrip_empty_payload :
  (Z.of_nat (8 * length (@nil Z)) + 32 <= Z.of_nat (length (available_indices 44)))
  /\ (exists h' encoded,
        encodeMessage (flat_heap 44 0) (flat_image 11 1) [] (Some []) = (h', Some encoded))
  /\ pixel_roundtrip (flat_heap 44 0) (flat_image 11 1) [] (Some []) = None
  /\ pixel_roundtrip (flat_heap 44 0) (flat_image 11 1) [] (Some []) <> Some [].
Proof.
  split; [vm_compute; discriminate |]. split; [| split].
  - eexists _, _. vm_compute. reflexivity.
  - vm_compute. reflexivity.
  - vm_compute. discriminate.
Qed.

(** C1 (amended): for every pixel carrier [P], every non-empty payload [M]
    of bytes whose bit length fits the 32-bit header and with
    [bitlen(M) + 32 <= usable slots of P], and every seed argument (a
    string, the empty string, or absent), embedding and then extracting
    with the same seed returns exactly [M]. *)
Theorem pixel_roundtrip_nonempty (h : heap) (imageData : ImageData.t) (P M : list Z)
    (seed : option js_string) :
  h !! ImageData.data imageData = Some P ->
  M <> [] -> Forall is_byte M -> 8 * Z.of_nat (length M) < 2 ^ 32 ->
  (8 * length M + 32 <= length (available_indices (length P)))%nat ->
  pixel_roundtrip h imageData M seed = Some M.
Proof.
  intros HP Hne Hb Hlen Hfit.
  destruct (encode_then_decode h imageData P M seed HP Hne Hb Hlen Hfit)
    as (h' & encoded & Henc & Hdec).
  unfold pixel_roundtrip. rewrite Henc. exact Hdec.
Qed.

Lemma pixel_roundtrip_nonempty_witness :
  pixel_roundtrip (flat_heap 80 7) (flat_image 5 4) [72; 105] None = Some [72; 105].
Proof.
  apply (pixel_roundtrip_nonempty (flat_heap 80 7) (flat_image 5 4) (replicate 80 7)).
  - reflexivity.
  - discriminate.
  - byte_list.
  - cbn. lia.
  - vm_compute. lia.
Defined.

(** C4, as stated, fails for an absent seed argument: the parameter default
    replaces it by the module's seed literal, and the slots are shuffled. *)
Lemma absent_seed_is_shuffled :
  pixel_slots 12 None = [10; 8; 5; 0; 2; 1; 9; 6; 4]%nat
  /\ available_indices 12 = [0; 1; 2; 4; 5; 6; 8; 9; 10]%nat
  /\ pixel_slots 12 None <> available_indices 12
  /\ audio_slots 6 None = [0; 4; 2; 3; 1; 5]%nat
  /\ identity_indices 6 = [0; 1; 2; 3; 4; 5]%nat
  /\ audio_slots 6 None <> identity_indices 6.
Proof. vm_compute. repeat split; try reflexivity; discriminate. Qed.

(** C4 (amended): when the seed argument is the empty string, the pixel
    functions use the RGB component indices in ascending order and the audio
    functions the sample indices in ascending order, unshuffled; an absent
    seed argument is the module's default seed, a non-empty string, in all
    four functions. *)
Theorem empty_seed_natural_order (len totalSamples : nat) :
  pixel_slots len (Some []) = filter is_rgb (seq 0 len)
  /\ audio_slots totalSamples (Some []) = seq 0 totalSamples
  /\ pixel_slots len None = pixel_slots len (Some DEFAULT_SEED)
  /\ audio_slots totalSamples None = audio_slots totalSamples (Some AUDIO_DEFAULT_SEED)
  /\ DEFAULT_SEED <> [] /\ AUDIO_DEFAULT_SEED <> []
  /\ (forall h imageData payload,
        encodeMessage h imageData payload None
        = encodeMessage h imageData payload (Some DEFAULT_SEED))
  /\ (forall h imageData,
        decodeMessage h imageData None = decodeMessage h imageData (Some DEFAULT_SEED))
  /\ (forall audioBuffer payload,
        encodeAudioMessage audioBuffer payload None
        = encodeAudioMessage audioBuffer payload (Some AUDIO_DEFAULT_SEED))
  /\ (forall audioBuffer,
        decodeAudioMessage audioBuffer None
        = decodeAudioMessage audioBuffer (Some AUDIO_DEFAULT_SEED)).
Proof.
  split.
  { unfold pixel_slots, chaotic_shuffle. cbn [default]. apply available_indices_filter. }
  split.
  { unfold audio_slots, chaotic_shuffle. cbn [default]. apply identity_indices_seq. }
  split. { unfold pixel_slots. cbn [default]. reflexivity. }
  split. { unfold audio_slots. cbn [default]. reflexivity. }
  split. { discriminate. }
  split. { discriminate. }
  split. { intros. unfold encodeMessage. cbn [default]. reflexivity. }
  split. { intros. unfold decodeMessage. cbn [default]. reflexivity. }
  split. { intros. unfold encodeAudioMessage. cbn [default]. reflexivity. }
  intros. unfold decodeAudioMessage. cbn [default]. reflexivity.
Qed.

(** C5: whenever the length header [L] read from a carrier passes the
    validation ([0 < L <= usable slots - 32]), [decodeMessage] returns a
    byte sequence, of [floor(L / 8)] bytes, each packed from eight
    consecutive extracted digits; the digits past the last whole byte are
    dropped. *)
Theorem decode_truncates_to_whole_bytes (h : heap) (imageData : ImageData.t)
    (seed : option js_string) (data : list Z) (L : Z) :
  h !! ImageData.data imageData = Some data ->
  decoded_header data (pixel_slots (length data) seed) = Some L ->
  0 < L <= Z.of_nat (length (pixel_slots (length data) seed)) - 32 ->
  exists bytes,
    decodeMessage h imageData seed = Some bytes
    /\ length bytes = Z.to_nat (L / 8)
    /\ bytes = map (packed_byte (extracted_bits data (pixel_slots (length data) seed) L))
                 (seq 0 (Z.to_nat (L / 8))).
Proof.
  intros Hd Hh HL. unfold decodeMessage. cbv zeta.
  rewrite (lookup_total_correct h _ data Hd).
  change (chaotic_shuffle (default DEFAULT_SEED seed) (available_indices (length data)))
    with (pixel_slots (length data) seed).
  unfold decoded_header in Hh. rewrite Hh.
  destruct (Z.leb_spec L 0) as [? | _]; [lia |].
  destruct (Z.ltb_spec (Z.of_nat (length (pixel_slots (length data) seed)) - 32) L)
    as [? | _]; [lia |].
  cbn [orb]. unfold extracted_bits.
  set (bits := map (read_bit data (pixel_slots (length data) seed)) (seq 32 (Z.to_nat L))).
  assert (E : (length bits / 8)%nat = Z.to_nat (L / 8)).
  { unfold bits. rewrite length_map, length_seq.
    rewrite Z2Nat.inj_div by lia. reflexivity. }
  exists (binaryToBytes bits). split; [reflexivity |]. split.
  - rewrite length_binaryToBytes. exact E.
  - rewrite binaryToBytes_spec, E. reflexivity.
Qed.

Lemma decode_truncates_to_whole_bytes_witness :
  exists bytes,
    decodeMessage {[ 1%positive := <[38%nat := 1]> (<[37%nat := 1]> (replicate 80 0)) ]}
      (flat_image 5 4) (Some []) = Some bytes
    /\ length bytes = 1%nat.
Proof.
  destruct (decode_truncates_to_whole_bytes
              {[ 1%positive := <[38%nat := 1]> (<[37%nat := 1]> (replicate 80 0)) ]}
              (flat_image 5 4) (Some [])
              (<[38%nat := 1]> (<[37%nat := 1]> (replicate 80 0))) 12)
    as (bytes & Hdec & Hlen & _).
  - reflexivity.
  - vm_compute. reflexivity.
  - vm_compute. split; [reflexivity | discriminate].
  - exists bytes. split; [exact Hdec | exact Hlen].
Defined.

Lemma encodeAudioMessage_fits (audioBuffer : AudioBuffer.t) (payload : list Z)
    (seed : option js_string) :
  (length (total_bits payload)
   <= AudioBuffer.numberOfChannels audioBuffer * AudioBuffer.length audioBuffer)%nat ->
  exists encoded, encodeAudioMessage audioBuffer payload seed = Some encoded.
Proof.
  intros Hfit. unfold encodeAudioMessage. cbv zeta. fold (total_bits payload).
  destruct (Nat.ltb_spec
              (AudioBuffer.numberOfChannels audioBuffer * AudioBuffer.length audioBuffer)
              (length (total_bits payload))) as [? | _]; [lia |].
  eexists. reflexivity.
Qed.

Lemma encodeAudioMessage_overflow (audioBuffer : AudioBuffer.t) (payload : list Z)
    (seed : option js_string) :
  (AudioBuffer.numberOfChannels audioBuffer * AudioBuffer.length audioBuffer
   < length (total_bits payload))%nat ->
  encodeAudioMessage audioBuffer payload seed = None.
Proof.
  intros Hover. unfold encodeAudioMessage. cbv zeta. fold (total_bits payload).
  destruct (Nat.ltb_spec
              (AudioBuffer.numberOfChannels audioBuffer * AudioBuffer.length audioBuffer)
              (length (total_bits payload))) as [_ | ?]; [reflexivity | lia].
Qed.

(** C6: a payload whose bitstream [totalBits] (the 32-bit header followed by
    the payload digits, [32 + 8 * bytes] digits for a byte payload) is
    exactly as long as the usable-slot count is embedded, and one whose
    bitstream is longer gets the [null] result with the heap untouched; the
    audio variant does the same with capacity [channels * length]. *)
Theorem capacity_boundary (h : heap) (imageData : ImageData.t) (P : list Z)
    (audioBuffer : AudioBuffer.t) (M : list Z) (seed : option js_string) :
  h !! ImageData.data imageData = Some P ->
  let capacity := length (available_indices (length P)) in
  let audioCapacity :=
    (AudioBuffer.numberOfChannels audioBuffer * AudioBuffer.length audioBuffer)%nat in
  (Forall is_byte M -> 8 * Z.of_nat (length M) < 2 ^ 32 ->
   length (total_bits M) = (32 + 8 * length M)%nat)
  /\ (length (total_bits M) = capacity ->
      exists h' encoded, encodeMessage h imageData M seed = (h', Some encoded))
  /\ ((capacity < length (total_bits M))%nat ->
      encodeMessage h imageData M seed = (h, None))
  /\ (length (total_bits M) = audioCapacity ->
      exists encoded, encodeAudioMessage audioBuffer M seed = Some encoded)
  /\ ((audioCapacity < length (total_bits M))%nat ->
      encodeAudioMessage audioBuffer M seed = None).
Proof.
  intros HP capacity audioCapacity. repeat split.
  - apply length_total_bits.
  - intros E. eexists _, _. apply (encodeMessage_fits h imageData P M seed HP).
    fold capacity. lia.
  - intros E. apply (encodeMessage_overflow h imageData P M seed HP). exact E.
  - intros E. apply encodeAudioMessage_fits. fold audioCapacity. lia.
  - intros E. apply encodeAudioMessage_overflow. exact E.
Qed.

Lemma capacity_boundary_witness :
  length (total_bits [72; 105]) = 48%nat
  /\ (exists h' encoded,
        encodeMessage (flat_heap 64 9) (flat_image 4 4) [72; 105] None = (h', Some encoded))
  /\ encodeMessage (flat_heap 64 9) (flat_image 4 4) [72; 105; 33] None
     = (flat_heap 64 9, None)
  /\ (exists encoded, encodeAudioMessage (full_scale 24) [72; 105] None = Some encoded)
  /\ encodeAudioMessage (full_scale 24) [72; 105; 33] None = None.
Proof.
  destruct (capacity_boundary (flat_heap 64 9) (flat_image 4 4) (replicate 64 9)
              (full_scale 24) [72; 105] None) as (Hlen & Hp & _ & Ha & _);
    [reflexivity |].
  destruct (capacity_boundary (flat_heap 64 9) (flat_image 4 4) (replicate 64 9)
              (full_scale 24) [72; 105; 33] None) as (_ & _ & Hp' & _ & Ha');
    [reflexivity |].
  split; [apply Hlen; [byte_list | cbn; lia] |].
  split; [apply Hp; vm_compute; reflexivity |].
  split; [apply Hp'; vm_compute; lia |].
  split; [apply Ha; vm_compute; reflexivity |].
  apply Ha'. vm_compute. lia.
Defined.

(** ** The frame of [encodeMessage] *)

(** C9: [encodeMessage] leaves every buffer that was in the heap, the
    caller's among them, as it was, whether it embeds or returns [null]; in
    the clone it returns, a component at an index congruent to 3 modulo 4
    equals the original and every other component keeps the original's
    upper seven bits. *)
Theorem encode_frame (h h' : heap) (imageData : ImageData.t) (P M : list Z)
    (seed : option js_string) (result : option ImageData.t) :
  h !! ImageData.data imageData = Some P ->
  Forall is_byte P ->
  encodeMessage h imageData M seed = (h', result) ->
  h' !! ImageData.data imageData = Some P
  /\ (forall l buffer, h !! l = Some buffer -> h' !! l = Some buffer)
  /\ match result with
     | None => h' = h
     | Some encoded =>
         exists P',
           h' !! ImageData.data encoded = Some P'
           /\ length P' = length P
           /\ forall i v, P !! i = Some v ->
                exists v', P' !! i = Some v'
                  /\ ((i mod 4 = 3)%nat -> v' = v)
                  /\ Z.land v' 254 = Z.land v 254
     end.
Proof.
  intros HP Hbytes Henc.
  destruct (Nat.lt_ge_cases (length (available_indices (length P)))
              (length (total_bits M))) as [Hover | Hfit].
  { rewrite (encodeMessage_overflow h imageData P M seed HP Hover) in Henc.
    injection Henc as <- <-. auto. }
  rewrite (encodeMessage_fits h imageData P M seed HP Hfit) in Henc.
  injection Henc as <- <-.
  assert (Hfresh : forall l buffer, h !! l = Some buffer -> l <> fresh (dom h)).
  { intros l buffer Hl ->. apply (is_fresh (dom h)). apply elem_of_dom. eauto. }
  assert (Hold : forall l buffer, h !! l = Some buffer ->
            <[fresh (dom h) := embed_bits (pixel_slots (length P) seed) (total_bits M)
                                 (length (total_bits M)) P]> h !! l = Some buffer).
  { intros l buffer Hl. rewrite lookup_insert_ne; [exact Hl |].
    intros E. apply (Hfresh l buffer Hl). symmetry. exact E. }
  split; [apply Hold, HP |]. split; [exact Hold |].
  set (slots := pixel_slots (length P) seed).
  set (n := length (total_bits M)).
  exists (embed_bits slots (total_bits M) n P).
  split; [cbn [ImageData.data]; apply lookup_insert_eq |].
  split; [apply length_embed_bits |].
  intros i v Hi.
  assert (Hv : is_byte v) by (eapply Forall_lookup_1; eauto).
  destruct (decide (i ∈ take n slots)) as [Hin | Hout].
  - apply list_elem_of_lookup in Hin as [k Hk].
    assert (Hkn : (k < n)%nat).
    { apply lookup_lt_Some in Hk. rewrite length_take in Hk. lia. }
    rewrite lookup_take_lt in Hk by exact Hkn.
    destruct (lookup_lt_is_Some_2 (total_bits M) k Hkn) as [b Hb].
    assert (Hrgb : is_rgb i /\ (i < length P)%nat).
    { apply (pixel_slots_elem (length P) seed), list_elem_of_lookup. eauto. }
    exists (with_low_bit v b). split.
    + rewrite (embed_bits_written slots (total_bits M) n P k i b);
        [rewrite Hi; reflexivity | apply pixel_slots_NoDup | exact Hkn | exact Hk
         | exact Hb | apply Hrgb].
    + destruct (with_low_bit_byte v b Hv) as (_ & _ & Hup).
      split; [| exact Hup].
      intros Halpha. exfalso. destruct Hrgb as [Hrgb _]. apply Hrgb.
      unfold is_rgb in *.
      rewrite <- Nat.Div0.add_mod_idemp_l, Halpha. reflexivity.
  - exists v. split; [| split; [reflexivity | reflexivity]].
    rewrite embed_bits_other by exact Hout. exact Hi.
Qed.

Lemma encode_frame_witness :
  exists h' encoded,
    encodeMessage (flat_heap 80 200) (flat_image 5 4) [72] None = (h', Some encoded)
    /\ h' !! 1%positive = Some (replicate 80 200).
Proof.
  destruct (encodeMessage (flat_heap 80 200) (flat_image 5 4) [72] None)
    as [h' [encoded |]] eqn:E; [| vm_compute in E; discriminate].
  exists h', encoded. split; [reflexivity |].
  destruct (encode_frame (flat_heap 80 200) h' (flat_image 5 4) (replicate 80 200)
              [72] None (Some encoded)) as [Hsame _].
  - reflexivity.
  - apply Forall_replicate. unfold is_byte. lia.
  - exact E.
  - exact Hsame.
Defined.

(** ** Seeds with the same character-code sum *)

Lemma chaotic_shuffle_same_sum (s1 s2 : js_string) (a : list nat) :
  s1 <> [] -> s2 <> [] -> SeededRandom.new s1 = SeededRandom.new s2 ->
  chaotic_shuffle s1 a = chaotic_shuffle s2 a.
Proof.
  intros H1 H2 E. unfold chaotic_shuffle.
  destruct s1 as [| c1 r1]; [congruence |]. destruct s2 as [| c2 r2]; [congruence |].
  rewrite E. reflexivity.
Qed.

(** Without a surrogate pair the generator starts from the sum of the code
    units: [Array.from] yields them one by one. *)
Lemma Array_from_pair_free (s : js_string) :
  pair_free s = true -> Array_from s = map (fun c => [c]) s.
Proof.
  induction s as [| c rest IH]; intros Hfree; [reflexivity |].
  destruct rest as [| d rest'].
  - reflexivity.
  - rewrite Array_from_cons2. cbn [pair_free] in Hfree.
    apply andb_true_iff in Hfree as [Hpair Hrest].
    apply negb_true_iff in Hpair. rewrite Hpair.
    cbn [map]. f_equal. apply IH. exact Hrest.
Qed.

Lemma new_code_sum (s : js_string) :
  pair_free s = true -> SeededRandom.new s = code_sum s.
Proof.
  intros Hfree. unfold SeededRandom.new. rewrite (Array_from_pair_free s Hfree).
  assert (G : forall acc,
             fold_left (fun acc char => acc + charCodeAt0 char) (map (fun c => [c]) s) acc
             = acc + code_sum s).
  { clear Hfree. induction s as [| c rest IH]; intros acc; cbn [map fold_left code_sum foldr].
    - lia.
    - rewrite IH. unfold code_sum, charCodeAt0. cbn [hd]. lia. }
  rewrite G. lia.
Qed.

(** C10, as stated, fails, in two ways.  The empty string and the string
    made of the single character U+0000 are distinct, both have
    character-code sum 0, and only the second one shuffles; a payload
    embedded with it is not found when decoding with the empty seed.  And
    the two orders of the code units U+D83D and U+DE00 have the same sum,
    112189, but in the first order they form a surrogate pair, of which the
    generator counts the high half only: the states are 55357 and 112189,
    the slot sequences differ, and a payload embedded with one is not found
    with the other. *)
Lemma empty_and_nul_seed_collide :
  (@nil Z <> [0]
   /\ code_sum [] = code_sum [0]
   /\ SeededRandom.new [] = SeededRandom.new [0]
   /\ chaotic_shuffle [] (identity_indices 6) <> chaotic_shuffle [0] (identity_indices 6)
   /\ chaotic_shuffle [] (identity_indices 6) = [0; 1; 2; 3; 4; 5]%nat
   /\ chaotic_shuffle [0] (identity_indices 6) = [0; 5; 4; 2; 3; 1]%nat
   /\ exists h' encoded,
        encodeMessage (flat_heap 80 7) (flat_image 5 4) [72] (Some [0]) = (h', Some encoded)
        /\ decodeMessage h' encoded (Some []) = None)
  /\ ([55357; 56832] <> [56832; 55357]
      /\ code_sum [55357; 56832] = 112189
      /\ code_sum [56832; 55357] = 112189
      /\ SeededRandom.new [55357; 56832] = 55357
      /\ SeededRandom.new [56832; 55357] = 112189
      /\ chaotic_shuffle [55357; 56832] (identity_indices 6)
         <> chaotic_shuffle [56832; 55357] (identity_indices 6)
      /\ exists h' encoded,
           encodeMessage (flat_heap 80 7) (flat_image 5 4) [72] (Some [55357; 56832])
           = (h', Some encoded)
           /\ decodeMessage h' encoded (Some [56832; 55357]) = None).
Proof.
  split.
  - split; [discriminate |]. split; [reflexivity |]. split; [reflexivity |].
    split; [vm_compute; discriminate |].
    split; [vm_compute; reflexivity |]. split; [vm_compute; reflexivity |].
    destruct (encodeMessage (flat_heap 80 7) (flat_image 5 4) [72] (Some [0]))
      as [h' [encoded |]] eqn:E; [| vm_compute in E; discriminate].
    exists h', encoded. split; [reflexivity |].
    vm_compute in E. injection E as <- <-. vm_compute. reflexivity.
  - split; [discriminate |]. split; [reflexivity |]. split; [reflexivity |].
    split; [reflexivity |]. split; [reflexivity |].
    split; [vm_compute; discriminate |].
    destruct (encodeMessage (flat_heap 80 7) (flat_image 5 4) [72] (Some [55357; 56832]))
      as [h' [encoded |]] eqn:E; [| vm_compute in E; discriminate].
    exists h', encoded. split; [reflexivity |].
    vm_compute in E. injection E as <- <-. vm_compute. reflexivity.
Qed.

(** C10 (amended): two non-empty seed strings in which no high surrogate is
    directly followed by a low one, and whose character codes (UTF-16 code
    units) sum to the same value, give the same slot sequence, for every
    array shuffled and so for every slot count of both codecs; a non-empty
    payload embedded in a pixel carrier with one of them is extracted by
    decoding with the other. *)
Theorem colliding_seeds_interchangeable (s1 s2 : js_string) :
  s1 <> [] -> s2 <> [] -> pair_free s1 = true -> pair_free s2 = true ->
  code_sum s1 = code_sum s2 ->
  (forall a, chaotic_shuffle s1 a = chaotic_shuffle s2 a)
  /\ (forall len, pixel_slots len (Some s1) = pixel_slots len (Some s2))
  /\ (forall n, audio_slots n (Some s1) = audio_slots n (Some s2))
  /\ (forall h imageData P M,
        h !! ImageData.data imageData = Some P ->
        M <> [] -> Forall is_byte M -> 8 * Z.of_nat (length M) < 2 ^ 32 ->
        (8 * length M + 32 <= length (available_indices (length P)))%nat ->
        exists h' encoded,
          encodeMessage h imageData M (Some s1) = (h', Some encoded)
          /\ decodeMessage h' encoded (Some s2) = Some M).
Proof.
  intros H1 H2 F1 F2 Esum.
  assert (E : SeededRandom.new s1 = SeededRandom.new s2)
    by (rewrite (new_code_sum s1 F1), (new_code_sum s2 F2); exact Esum).
  assert (Hsh : forall a, chaotic_shuffle s1 a = chaotic_shuffle s2 a)
    by (intros a; apply chaotic_shuffle_same_sum; assumption).
  assert (Hpx : forall len, pixel_slots len (Some s1) = pixel_slots len (Some s2))
    by (intros len; apply Hsh).
  split; [exact Hsh |]. split; [exact Hpx |]. split; [intros n; apply Hsh |].
  intros h imageData P M HP Hne Hb Hlen Hfit.
  destruct (encode_then_decode h imageData P M (Some s1) HP Hne Hb Hlen Hfit)
    as (h' & encoded & Henc & Hdec).
  exists h', encoded. split; [exact Henc |].
  rewrite <- Hdec. unfold decodeMessage. cbv zeta. cbn [default].
  rewrite !(Hsh (available_indices _)). reflexivity.
Qed.

Lemma colliding_seeds_interchangeable_witness :
  exists h' encoded,
    encodeMessage (flat_heap 80 7) (flat_image 5 4) [72] (Some (code_units "ab"))
    = (h', Some encoded)
    /\ decodeMessage h' encoded (Some (code_units "ba")) = Some [72].
Proof.
  destruct (colliding_seeds_interchangeable (code_units "ab") (code_units "ba"))
    as (_ & _ & _ & H).
  - discriminate.
  - discriminate.
  - reflexivity.
  - reflexivity.
  - reflexivity.
  - apply (H (flat_heap 80 7) (flat_image 5 4) (replicate 80 7) [72]).
    + reflexivity.
    + discriminate.
    + byte_list.
    + cbn. lia.
    + vm_compute. lia.
Defined.

(** ** The audio codec *)

(** C2 fails on the code.  A sample of silence that receives bit 1 is stored
    as [fround(1 / 32767)], which lies below [1 / 32767]; re-quantizing it
    floors to 0 and the bit read back is 0.  With a carrier of silence the
    header of a one-byte payload therefore reads as 0 and extraction
    returns [null]. *)
Theorem audio_roundtrip_fails_on_silence :
  (8 * length [65] + 32 <= 1 * 48)%nat
  /\ embed_sample (S754_zero false) true = S754_finite false 4503737066323968 (-67)
  /\ Z.land (quantize (embed_sample (S754_zero false) true)) 1 = 0
  /\ (exists encoded, encodeAudioMessage (silence 48) [65] (Some []) = Some encoded)
  /\ audio_roundtrip (silence 48) [65] (Some []) = None
  /\ audio_roundtrip (silence 48) [65] None = None.
Proof.
  split; [cbn; lia |]. split; [vm_compute; reflexivity |].
  split; [vm_compute; reflexivity |]. split; [eexists; vm_compute; reflexivity |].
  split; vm_compute; reflexivity.
Qed.

(** ** Determinism of the shuffle *)

Lemma shuffle_step_deterministic (st st1 st2 : loop_state) :
  shuffle_step st st1 -> shuffle_step st st2 -> st1 = st2.
Proof.
  intros H1 H2. destruct H1 as [i rng rng1 x1 a E1]. inversion H2 as [i' rng' rng2 x2 a' E2].
  subst. rewrite E1 in E2. injection E2 as <- <-. reflexivity.
Qed.

Lemma shuffle_run_deterministic (st : loop_state) (r1 r2 : list nat) :
  shuffle_run st r1 -> shuffle_run st r2 -> r1 = r2.
Proof.
  intros H1. revert r2. induction H1 as [rng a | st st' r Hstep Hrun IH]; intros r2 H2.
  - inversion H2 as [| ? st'' ? Hstep' _]; subst; [reflexivity |]. inversion Hstep'.
  - inversion H2 as [| ? st'' ? Hstep' Hrun']; subst.
    + inversion Hstep.
    + rewrite (shuffle_step_deterministic st st' st'' Hstep Hstep') in IH.
      apply IH. exact Hrun'.
Qed.

(** The loop always reaches its exit, with the array [shuffle_from] computes. *)
Lemma shuffle_run_complete (i : nat) (rng : SeededRandom.t) (a : list nat) :
  shuffle_run (LoopState i rng a) (shuffle_from i rng a).
Proof.
  revert rng a. induction i as [| i IH]; intros rng a; cbn [shuffle_from].
  - constructor.
  - destruct (SeededRandom.next rng) as [rng' x] eqn:E.
    eapply shuffle_run_step; [constructor; exact E | apply IH].
Qed.

Lemma generates_chaotic_shuffle (seed : js_string) (n : nat) :
  generates seed n (chaotic_shuffle seed (identity_indices n)).
Proof.
  unfold generates, chaotic_shuffle. destruct seed as [| c rest]; [reflexivity |].
  rewrite identity_indices_seq, length_seq, <- identity_indices_seq.
  apply shuffle_run_complete.
Qed.

(** C3: for every seed string and slot count, two generations of the
    shuffled index sequence (a generator constructed from the sum of the
    character codes, then the loop from [n - 1] down to 1 drawing
    [floor(next() * (i + 1))]) end with identical sequences. *)
Theorem permutation_deterministic (seed : js_string) (n : nat) (first second : list nat) :
  generates seed n first -> generates seed n second -> first = second.
Proof.
  unfold generates. destruct seed as [| c rest].
  - intros -> ->. reflexivity.
  - apply shuffle_run_deterministic.
Qed.

Lemma permutation_deterministic_witness :
  chaotic_shuffle (code_units "test") (identity_indices 10)
  = [5; 3; 6; 8; 2; 4; 9; 7; 1; 0]%nat.
Proof.
  apply (permutation_deterministic (code_units "test") 10).
  - apply generates_chaotic_shuffle.
  - replace [5; 3; 6; 8; 2; 4; 9; 7; 1; 0]%nat
      with (chaotic_shuffle (code_units "test") (identity_indices 10))
      by (vm_compute; reflexivity).
    apply generates_chaotic_shuffle.
Defined.

(** ** The envelope *)

Lemma typed_set_at_middle {A : Type} (pre old post src : list A) (offset : nat) :
  offset = length pre -> length old = length src ->
  typed_set_at (pre ++ old ++ post) src offset = pre ++ src ++ post.
Proof.
  intros -> Hlen. unfold typed_set_at. rewrite take_app_length.
  do 2 f_equal. rewrite <- Hlen, drop_app_add, drop_app_length. reflexivity.
Qed.

Section EnvelopeFacts.
Context `{Platform}.

Lemma length_drawn_salt (random : nat -> Z) : length (drawn_salt random) = 16%nat.
Proof. unfold drawn_salt. rewrite length_map, length_seq. reflexivity. Qed.

Lemma length_drawn_iv (random : nat -> Z) : length (drawn_iv random) = 12%nat.
Proof. unfold drawn_iv. rewrite length_map, length_seq. reflexivity. Qed.

(** The three [set] calls fill the zeroed array completely. *)
Lemma encryptData_layout (random : nat -> Z) (data : js_string + list Z)
    (password : option js_string) (compress : option bool) :
  encryptData random data password compress
  = (if default true compress then 1 else 0)
    :: drawn_salt random ++ drawn_iv random ++ ciphertext random data password compress.
Proof.
  unfold encryptData. cbv zeta.
  fold (sealed_input data compress). fold (ciphertext random data password compress).
  set (salt := drawn_salt random). set (iv := drawn_iv random).
  set (ct := ciphertext random data password compress).
  set (flag := if default true compress then 1 else 0).
  pose proof (length_drawn_salt random) as Ls. pose proof (length_drawn_iv random) as Li.
  fold salt in Ls. fold iv in Li.
  replace (replicate (1 + length salt + length iv + length ct) 0)
    with ([0] ++ replicate (length salt) 0 ++ replicate (length iv) 0
          ++ replicate (length ct) 0)
    by (rewrite <- !replicate_add; reflexivity).
  change (<[0%nat := flag]> ([0] ++ replicate (length salt) 0 ++ replicate (length iv) 0
                             ++ replicate (length ct) 0))
    with ([flag] ++ replicate (length salt) 0
          ++ (replicate (length iv) 0 ++ replicate (length ct) 0)).
  rewrite (typed_set_at_middle [flag] (replicate (length salt) 0) _ salt 1)
    by (try reflexivity; apply length_replicate).
  rewrite (app_assoc [flag] salt).
  rewrite (typed_set_at_middle ([flag] ++ salt) (replicate (length iv) 0) _ iv)
    by (try apply length_replicate; rewrite length_app; reflexivity).
  rewrite (app_assoc ([flag] ++ salt) iv).
  rewrite <- (app_nil_r (replicate (length ct) 0)).
  rewrite (typed_set_at_middle (([flag] ++ salt) ++ iv) (replicate (length ct) 0) [] ct)
    by (try apply length_replicate; rewrite !length_app; cbn [length]; lia).
  rewrite app_nil_r, <- !app_assoc. reflexivity.
Qed.

End EnvelopeFacts.

Lemma envelope_parts `{Platform} (random : nat -> Z) (data : js_string + list Z)
    (password : option js_string) (compress : option bool) :
  let combined := encryptData random data password compress in
  combined !! 0%nat = Some (if default true compress then 1 else 0)
  /\ slice 1 17 combined = drawn_salt random
  /\ slice 17 29 combined = drawn_iv random
  /\ drop 29 combined = ciphertext random data password compress
  /\ (29 <= length combined)%nat.
Proof.
  cbv zeta. rewrite encryptData_layout.
  pose proof (length_drawn_salt random) as Ls. pose proof (length_drawn_iv random) as Li.
  set (salt := drawn_salt random) in *. set (iv := drawn_iv random) in *.
  set (ct := ciphertext random data password compress).
  split; [reflexivity |]. unfold slice.
  split.
  { change (drop 1 (_ :: salt ++ iv ++ ct)) with (salt ++ iv ++ ct).
    change (17 - 1)%nat with 16%nat. rewrite <- Ls. apply take_app_length. }
  assert (D17 : drop 17 ((if default true compress then 1 else 0) :: salt ++ iv ++ ct)
                = iv ++ ct).
  { change (drop 17 (_ :: salt ++ iv ++ ct)) with (drop 16 (salt ++ iv ++ ct)).
    rewrite <- Ls. apply drop_app_length. }
  split.
  { rewrite D17. change (29 - 17)%nat with 12%nat. rewrite <- Li. apply take_app_length. }
  split.
  { replace 29%nat with (17 + 12)%nat by reflexivity. rewrite <- drop_drop, D17.
    rewrite <- Li. apply drop_app_length. }
  cbn [length]. rewrite !length_app. lia.
Qed.

(** C8: the sequence [encryptData] returns has the compression flag (1 when
    compression was requested, else 0) as byte 0, the salt as bytes [1, 17),
    the nonce as bytes [17, 29), the ciphertext with its tag from byte 29
    on, and is at least 29 bytes long. *)
Theorem envelope_layout `{Platform} (random : nat -> Z) (data : js_string + list Z)
    (password : option js_string) (compress : option bool) :
  let combined := encryptData random data password compress in
  combined !! 0%nat = Some (if default true compress then 1 else 0)
  /\ slice 1 17 combined = drawn_salt random
  /\ slice 17 29 combined = drawn_iv random
  /\ drop 29 combined = ciphertext random data password compress
  /\ (29 <= length combined)%nat.
Proof. apply envelope_parts. Qed.

(** C7: with a cipher and a gzip that are inverse pairs, opening what
    [encryptData] sealed, with the same password argument, succeeds and
    returns the payload bytes, whether compression was requested, refused or
    left to its default. *)
Theorem envelope_roundtrip `{Platform} (random : nat -> Z) (data : js_string + list Z)
    (password : option js_string) (compress : option bool) :
  standard_inverses ->
  exists result,
    decryptData (encryptData random data password compress) password = Some result
    /\ DecryptResult.data result = raw_bytes data.
Proof.
  intros [Haes Hgzip].
  destruct (envelope_parts random data password compress)
    as (Hflag & Hsalt & Hiv & Hct & _).
  unfold decryptData. cbv zeta.
  change (1 + SALT_SIZE)%nat with 17%nat. change (17 + IV_SIZE)%nat with 29%nat.
  rewrite Hsalt, Hiv, Hct, Hflag. unfold ciphertext. rewrite Haes.
  eexists. split; [reflexivity |]. cbn [DecryptResult.data].
  unfold sealed_input, compressData, decompressData.
  destruct (default true compress).
  - rewrite bool_decide_eq_true_2 by reflexivity.
    destruct has_body; [rewrite Hgzip |]; reflexivity.
  - rewrite bool_decide_eq_false_2 by discriminate. reflexivity.
Qed.

Lemma toy_platform_inverses : @standard_inverses toy_platform.
Proof.
  split.
  - intros key iv data. cbn.
    assert (L : length (toy_tag key iv) = 16%nat).
    { unfold toy_tag. rewrite length_take, !length_app, length_replicate. lia. }
    assert (E1 : take 16 (toy_tag key iv ++ data) = toy_tag key iv)
      by (rewrite <- L at 1; apply take_app_length).
    assert (E2 : drop 16 (toy_tag key iv ++ data) = data)
      by (rewrite <- L; apply drop_app_length).
    destruct (decide (take 16 (toy_tag key iv ++ data) = toy_tag key iv)) as [_ | Hne];
      [rewrite E2; reflexivity | contradiction].
  - intros data. reflexivity.
Qed.

Lemma envelope_roundtrip_witness :
  exists result,
    @decryptData toy_platform
      (@encryptData toy_platform counting_entropy (inr [72; 105]) (Some (code_units "pw"))
         (Some true))
      (Some (code_units "pw")) = Some result
    /\ DecryptResult.data result = [72; 105].
Proof.
  apply (@envelope_roundtrip toy_platform counting_entropy (inr [72; 105])
           (Some (code_units "pw")) (Some true)).
  apply toy_platform_inverses.
Defined.

(** ** Further facts about the shuffle and the digit strings *)

(** With binary64 rounding taken into account, no swap of a shuffle leaves
    the array: for a seed of non-negative code units and an array of fewer
    than [2^32] slots, every draw [j = Math.floor(rng.next() * (i + 1))] is at
    most [i]. *)
Theorem shuffle_swaps_inside_array (seed : js_string) (a : list nat) :
  Forall (fun c => 0 <= c) seed -> Z.of_nat (length a) < 2 ^ 32 ->
  draws_in_range (length a - 1) (SeededRandom.new seed).
Proof.
  intros Hseed Hlen. apply shuffle_draws_in_range; [lia | apply seed_sum_nonneg, Hseed].
Qed.

Lemma shuffle_swaps_inside_array_witness :
  draws_in_range 47 (SeededRandom.new DEFAULT_SEED).
Proof.
  apply (shuffle_swaps_inside_array DEFAULT_SEED (replicate 48 0%nat)).
  - repeat constructor; vm_compute; discriminate.
  - vm_compute. reflexivity.
Defined.

(** The slot sequence after the shuffle is a rearrangement of the slots
    before it, whatever the seed. *)
Theorem shuffle_is_rearrangement (seed : option js_string) (len totalSamples : nat) :
  pixel_slots len seed ≡ₚ available_indices len
  /\ audio_slots totalSamples seed ≡ₚ seq 0 totalSamples.
Proof. split; [apply pixel_slots_Permutation | apply audio_slots_Permutation]. Qed.

(** Packing the digits of a byte sequence gives the sequence back. *)
Theorem pack_unpack (bytes : list Z) :
  Forall is_byte bytes -> binaryToBytes (bytesToBinary bytes) = bytes.
Proof. apply binaryToBytes_bytesToBinary. Qed.

Lemma pack_unpack_witness : binaryToBytes (bytesToBinary [0; 65; 255]) = [0; 65; 255].
Proof.
  apply (pack_unpack [0; 65; 255]). byte_list.
Defined.
